(** * MicrochipSRAM: a shallow embedding of the serial SRAM driver

    The driver of [MicrochipSRAM.h] talks to a Microchip 23xxx serial SRAM
    over SPI.  Its methods are embedded here as computations of a small
    state monad over a world made of the driver object, the device on the
    bus and the trace of bus events.

    Integers are [Z]; a [uint32_t] result is wrapped with [to_uint32], a
    [(uint8_t)] cast with [to_uint8].  A value of a template type [T] is
    its raw byte view, a [list Z], and [sizeof(T)] is the length of that
    list ([sizeof] is converted to [uint32_t] by the usual arithmetic
    conversions before it meets an address).

    [get] and [put] are declared to return [uint32_t &] and return their
    local [returnAddress]: what the caller receives is a [reference] to a
    variable that no longer exists, and reading it is undefined.  [get]
    fills its argument, a [T &], byte by byte; the argument may be any
    object of the program, the driver itself included, so the embedding
    says through a [buffer] where the bytes land. *)

From Stdlib Require Import ZArith List Lia Bool.
Import ListNotations.
Local Open Scope Z_scope.

(** ** Machine integers *)

Definition to_uint32 (x : Z) : Z := x mod 2 ^ 32.
Definition to_uint8 (x : Z) : Z := x mod 2 ^ 8.

(** ** Constants of the header *)

Definition SRAM_WRITE_MODE_REG : Z := 0x01.
Definition SRAM_READ_MODE_REG : Z := 0x05.
Definition SRAM_BYTE_MODE : Z := 0.
Definition SRAM_PAGE_MODE : Z := 128.
Definition SRAM_SEQ_MODE : Z := 192.
Definition SRAM_1024 : Z := 131072.
Definition SRAM_512 : Z := 65536.
Definition SRAM_256 : Z := 32768.
Definition SRAM_128 : Z := 16384.
Definition SRAM_64 : Z := 8192.
Definition SRAM_WRITE_CODE : Z := 2.
Definition SRAM_READ_CODE : Z := 3.

(** The capacities of the chip family, in ascending order. *)
Definition supported_capacities : list Z :=
  [SRAM_64; SRAM_128; SRAM_256; SRAM_512; SRAM_1024].

Definition supported (c : Z) : Prop := In c supported_capacities.

(** ** The driver object and its environment *)

(** The two data members of [class MicrochipSRAM]. *)
Record MicrochipSRAM : Type := mkSRAM {
  SRAMBytes : Z;
  _SSPin : Z
}.

Inductive level : Type := LOW | HIGH.

(** What the driver does to the outside world: [digitalWrite] on a pin and
    a full-duplex [SPI.transfer] of one byte. *)
Inductive event : Type :=
| PinWrite (pin : Z) (l : level)
| Transfer (sent received : Z).

(** The external collaborators: the digital output line and the SPI bus,
    with whatever device hangs on them. *)
Class Bus (B : Type) : Type := {
  bus_digitalWrite : Z -> level -> B -> B;
  bus_transfer : Z -> B -> Z * B
}.

(** The world a method runs in.  [trace] is kept newest event first. *)
Record World (B : Type) : Type := mkWorld {
  this : MicrochipSRAM;
  wire : B;
  trace : list event
}.
Arguments mkWorld {B} _ _ _.
Arguments this {B} _.
Arguments wire {B} _.
Arguments trace {B} _.

(** The bytes the driver put on the bus, oldest first. *)
Fixpoint sent_bytes (evs : list event) : list Z :=
  match evs with
  | [] => []
  | PinWrite _ _ :: rest => sent_bytes rest
  | Transfer s _ :: rest => s :: sent_bytes rest
  end.

(** ** References and buffers *)

(** What [get] and [put] return: a reference to their local
    [returnAddress], whose lifetime ended with the call.  [held] is the
    value of the local at the [return] statement; no caller can get at it
    (see [read_reference]). *)
Inductive reference : Type := DeadLocal (held : Z).

(** Where the value object of [get] lies with respect to the driver
    object: [Apart] from it, or with its first byte at byte [offset] of the
    driver object (negative when the value starts before it). *)
Inductive buffer : Type :=
| Apart
| Within (offset : Z).

(** Byte [k] of a little-endian [uint32_t] replaced by [b]. *)
Definition set_byte (x k b : Z) : Z :=
  x - ((x / 256 ^ k) mod 256) * 256 ^ k + b * 256 ^ k.

(** A store to byte [k] of the driver object, laid out as the compilers of
    the Arduino boards do (members in declaration order, little-endian):
    the four bytes of [SRAMBytes], least significant first, then
    [_SSPin].  Bytes outside belong to something else. *)
Definition poke (k b : Z) (d : MicrochipSRAM) : MicrochipSRAM :=
  if (0 <=? k) && (k <? 4) then mkSRAM (set_byte (SRAMBytes d) k b) (_SSPin d)
  else if k =? 4 then mkSRAM (SRAMBytes d) b
  else d.

(** The driver object after byte [i] of the value received [b]. *)
Definition poke_at (value : buffer) (i : nat) (b : Z) (d : MicrochipSRAM)
  : MicrochipSRAM :=
  match value with
  | Apart => d
  | Within offset => poke (offset + Z.of_nat i) b d
  end.

(** The driver object after the bytes [bs] were stored from byte [i] of
    the value on. *)
Fixpoint pokes (value : buffer) (i : nat) (bs : list Z) (d : MicrochipSRAM)
  : MicrochipSRAM :=
  match bs with
  | [] => d
  | b :: rest => pokes value (S i) rest (poke_at value i b d)
  end.

(** A value of [n] bytes that shares no byte with the two members of the
    driver object. *)
Definition apart (value : buffer) (n : nat) : Prop :=
  match value with
  | Apart => True
  | Within offset => offset + Z.of_nat n <= 0 \/ 5 <= offset
  end.

(** ** Outcomes and the monad

    [Undefined] is C++ undefined behaviour: [%] with a zero divisor, and
    the read of a reference to a dead local.  [OutOfFuel] carries the world
    reached by a loop that is still running when its fuel is spent. *)
Inductive outcome (B A : Type) : Type :=
| Returns (a : A) (w : World B)
| Undefined
| OutOfFuel (w : World B).
Arguments Returns {B A} _ _.
Arguments Undefined {B A}.
Arguments OutOfFuel {B A} _.

Definition M (B A : Type) : Type := World B -> outcome B A.

Definition ret {B A : Type} (a : A) : M B A := fun w => Returns a w.

Definition bind {B A A' : Type} (m : M B A) (f : A -> M B A') : M B A' :=
  fun w =>
    match m w with
    | Returns a w' => f a w'
    | Undefined => Undefined
    | OutOfFuel w' => OutOfFuel w'
    end.

Notation "x <- c1 ; c2" := (bind c1 (fun x => c2))
  (at level 61, c1 at next level, right associativity).
Notation "c1 ;; c2" := (bind c1 (fun _ => c2))
  (at level 61, right associativity).

Definition when {B : Type} (c : bool) (m : M B Z) : M B unit :=
  if c then (m ;; ret tt) else ret tt.

(** The worlds an outcome can be observed in, if any. *)
Definition final_world {B A : Type} (o : outcome B A) : option (World B) :=
  match o with
  | Returns _ w => Some w
  | Undefined => None
  | OutOfFuel w => Some w
  end.

Section Driver.
Context {B : Type} {bus : Bus B}.

(** *** Primitive computations *)

Definition member {A : Type} (f : MicrochipSRAM -> A) : M B A :=
  fun w => Returns (f (this w)) w.

Definition set_SRAMBytes (c : Z) : M B unit :=
  fun w => Returns tt
    (mkWorld (mkSRAM c (_SSPin (this w))) (wire w) (trace w)).

Definition digitalWrite (pin : Z) (l : level) : M B unit :=
  fun w => Returns tt
    (mkWorld (this w) (bus_digitalWrite pin l (wire w))
             (PinWrite pin l :: trace w)).

Definition SPI_transfer (b : Z) : M B Z :=
  fun w =>
    let r := bus_transfer b (wire w) in
    Returns (fst r) (mkWorld (this w) (snd r) (Transfer b (fst r) :: trace w)).

(** [a % b] on unsigned operands. *)
Definition umod (a b : Z) : M B Z :=
  fun w => if b =? 0 then Undefined else Returns (a mod b) w.

Definition out_of_fuel {A : Type} : M B A := fun w => OutOfFuel w.

(** The read of the object a [reference] refers to. *)
Definition read_reference (r : reference) : M B Z :=
  match r with
  | DeadLocal _ => fun _ => Undefined
  end.

(** [*bytePtr = b] for byte [i] of the value. *)
Definition store_byte (value : buffer) (i : nat) (b : Z) : M B unit :=
  fun w => Returns tt
    (mkWorld (poke_at value i b (this w)) (wire w) (trace w)).

(** The read loop of [get]: [sizeof(T)] transfers of the dummy byte 0x00,
    each reply stored at the next byte of the value, from byte [i] on.
    The result is the bytes the value ends up with. *)
Fixpoint read_bytes (value : buffer) (i n : nat) : M B (list Z) :=
  match n with
  | O => ret []
  | S k =>
      b <- SPI_transfer 0x00;
      store_byte value i b ;;
      rest <- read_bytes value (S i) k;
      ret (b :: rest)
  end.

(** The write loop of [put]: the bytes of the value are transferred in
    address order. *)
Fixpoint write_bytes (value : list Z) : M B unit :=
  match value with
  | [] => ret tt
  | b :: rest => SPI_transfer b ;; write_bytes rest
  end.

Definition sizeof (value : list Z) : Z := Z.of_nat (length value).

(** *** [MicrochipSRAM::get]

    The result is the reference the method returns and the bytes of the
    value once it is filled. *)
Definition get (addr : Z) (sizeofT : nat) (value : buffer)
  : M B (reference * list Z) :=
  c <- member SRAMBytes;
  returnAddress <- umod (to_uint32 (addr + Z.of_nat sizeofT)) c;
  pin <- member _SSPin;
  digitalWrite pin LOW ;;
  SPI_transfer SRAM_READ_CODE ;;
  c' <- member SRAMBytes;
  when (c' =? SRAM_1024)
       (SPI_transfer (Z.land (to_uint8 (Z.shiftr addr 16)) 0xFF)) ;;
  SPI_transfer (Z.land (to_uint8 (Z.shiftr addr 8)) 0xFF) ;;
  SPI_transfer (to_uint8 addr) ;;
  bytes <- read_bytes value 0 sizeofT;
  pin' <- member _SSPin;
  digitalWrite pin' HIGH ;;
  ret (DeadLocal returnAddress, bytes).

(** *** [MicrochipSRAM::put]

    The value is a [const T &]: it is only read. *)
Definition put (addr : Z) (value : list Z) : M B reference :=
  c <- member SRAMBytes;
  returnAddress <- umod (to_uint32 (addr + sizeof value)) c;
  pin <- member _SSPin;
  digitalWrite pin LOW ;;
  SPI_transfer SRAM_WRITE_CODE ;;
  c' <- member SRAMBytes;
  when (c' =? SRAM_1024)
       (SPI_transfer (Z.land (to_uint8 (Z.shiftr addr 16)) 0xFF)) ;;
  SPI_transfer (Z.land (to_uint8 (Z.shiftr addr 8)) 0xFF) ;;
  SPI_transfer (to_uint8 addr) ;;
  write_bytes value ;;
  pin' <- member _SSPin;
  digitalWrite pin' HIGH ;;
  ret (DeadLocal returnAddress).

(** *** [MicrochipSRAM::fillMemory]

    [while(addr<(SRAMBytes-sizeof(T))) addr = put(addr,value);]
    The assignment reads the reference [put] returned.  One unit of fuel
    is spent per iteration of the loop body.  The method is declared
    without a return type and has no [return] statement; it is read as
    returning nothing. *)
Fixpoint fillMemory (fuel : nat) (addr : Z) (value : list Z) : M B unit :=
  c <- member SRAMBytes;
  if addr <? to_uint32 (c - sizeof value) then
    match fuel with
    | O => out_of_fuel
    | S k =>
        r <- put addr value;
        addr' <- read_reference r;
        fillMemory k addr' value
    end
  else ret tt.


(** The number of address bytes [get] and [put] send. *)
Definition address_bytes (d : MicrochipSRAM) : nat :=
  if SRAMBytes d =? SRAM_1024 then 3%nat else 2%nat.

End Driver.

(** ** The part of the driver that lives in the implementation file

    The constructor and [clearMemory] are declared in the header and
    defined in [MicrochipSRAM.cpp]. *)
Section Implementation.
Context {B : Type} {bus : Bus B}.

(** Modelled from the spec: the address width of a chip profile, used by the
    constructor of MicrochipSRAM.cpp while it probes: 2 bytes for
    capacities up to 65536, 3 for 131072. *)
Definition profile_address_bytes (c : Z) : nat :=
  if c <=? SRAM_512 then 2%nat else 3%nat.

(** Modelled from the spec: the address of a probe frame of the constructor
    (MicrochipSRAM.cpp), big-endian on [width] bytes, most significant byte
    first. *)
Fixpoint send_address (width : nat) (addr : Z) : M B unit :=
  match width with
  | O => ret tt
  | S k =>
      SPI_transfer (to_uint8 (Z.shiftr addr (8 * Z.of_nat k))) ;;
      send_address k addr
  end.

(** Modelled from the spec: step 1 of capacity detection, which is part of
    the constructor in MicrochipSRAM.cpp.  One frame: chip-select low,
    the command byte [SRAM_WRITE_MODE_REG], the data byte, chip-select
    high. *)
Definition write_mode_register (pin mode : Z) : M B unit :=
  digitalWrite pin LOW ;;
  SPI_transfer SRAM_WRITE_MODE_REG ;;
  SPI_transfer mode ;;
  digitalWrite pin HIGH.

(** Modelled from the spec: the read-back of address 0 in step 2 of
    capacity detection (constructor, MicrochipSRAM.cpp), with the address
    width of the candidate. *)
Definition read_first_byte (pin : Z) (width : nat) : M B Z :=
  digitalWrite pin LOW ;;
  SPI_transfer SRAM_READ_CODE ;;
  send_address width 0 ;;
  b <- SPI_transfer 0x00;
  digitalWrite pin HIGH ;;
  ret b.

(** Modelled from the spec: the marker write of step 2 of capacity
    detection (constructor, MicrochipSRAM.cpp). *)
Definition write_marker (pin : Z) (width : nat) (addr : Z)
           (pattern : list Z) : M B unit :=
  digitalWrite pin LOW ;;
  SPI_transfer SRAM_WRITE_CODE ;;
  send_address width addr ;;
  write_bytes pattern ;;
  digitalWrite pin HIGH.

(** Modelled from the spec: the marker pattern of capacity detection
    (constructor, MicrochipSRAM.cpp).  Two bytes, so that the second one
    is written one past address [C - 1]; both are the complement of the
    byte found at address 0, so that a write that reaches address 0
    changes it. *)
Definition marker (found : Z) : list Z :=
  [Z.lxor found 0xFF; Z.lxor found 0xFF].

(** Modelled from the spec: the wraparound test of step 2 of capacity
    detection (constructor, MicrochipSRAM.cpp) for one candidate [c]:
    write the marker at address [c - 1], read back address 0, and report
    whether the value at address 0 changed. *)
Definition wraps_at (c : Z) : M B bool :=
  pin <- member _SSPin;
  before <- read_first_byte pin (profile_address_bytes c);
  write_marker pin (profile_address_bytes c) (c - 1) (marker before) ;;
  after <- read_first_byte pin (profile_address_bytes c);
  ret (negb (after =? before)).

(** Modelled from the spec: steps 2 and 3 of capacity detection
    (constructor, MicrochipSRAM.cpp).  The candidates are probed in
    ascending order; the first one that wraps is recorded; when none
    does, the capacity is left as it was. *)
Fixpoint detect (candidates : list Z) : M B unit :=
  match candidates with
  | [] => ret tt
  | c :: rest =>
      wrapped <- wraps_at c;
      if wrapped then set_SRAMBytes c else detect rest
  end.

(** Modelled from the spec: the constructor [MicrochipSRAM(SSPin)] of
    MicrochipSRAM.cpp.  The object starts with [SRAMBytes = 0] (the
    header's member initialiser) and the given pin; the chip-select line
    is driven high, the mode register is set to sequential mode and the
    capacity is detected. *)
Definition construct (SSPin : Z) (device : B) : outcome B unit :=
  (digitalWrite SSPin HIGH ;;
   write_mode_register SSPin SRAM_SEQ_MODE ;;
   detect supported_capacities)
    (mkWorld (mkSRAM 0 SSPin) device []).

(** Modelled from the spec: the loop of [clearMemory] of MicrochipSRAM.cpp.
    The byte is written at every address from 0 to [SRAMBytes - 1] through
    [put] with a one-byte value. *)
Fixpoint clear_from (n : nat) (addr clearValue : Z) : M B unit :=
  match n with
  | O => ret tt
  | S k => put addr [clearValue] ;; clear_from k (addr + 1) clearValue
  end.

(** Modelled from the spec: [clearMemory] of MicrochipSRAM.cpp, the loop
    [clear_from] over the [SRAMBytes] addresses of the chip, from 0. *)
Definition clearMemory (clearValue : Z) : M B unit :=
  c <- member SRAMBytes;
  clear_from (Z.to_nat c) 0 clearValue.

End Implementation.

(** ** Devices on the bus *)

(** *** A simulated chip

    A byte array behind the wire protocol of the 23xxx family, as the
    header describes it: a frame starts when chip-select goes low, the
    first byte is the command, a read or write command is followed by 2
    address bytes (3 on the 1 Mbit chips) and then by data.  In sequential
    mode the address pointer steps through the whole array and wraps from
    the last byte to address 0; in page mode it wraps inside the 32-byte
    page; in byte mode a single byte is moved. *)
Inductive phase : Type :=
| Deselected
| Command
| Address (cmd : Z) (remaining : nat) (acc : Z)
| Reading (ptr : Z)
| Writing (ptr : Z)
| ModeWrite
| ModeRead
| Ignoring.

Record Chip : Type := mkChip {
  capacity : Z;
  cs_pin : Z;
  mode_register : Z;
  memory : Z -> Z;
  state : phase
}.

(** What the master reads while the chip does not drive its output. *)
Definition floating : Z := 0.

Definition store (m : Z -> Z) (a b : Z) : Z -> Z :=
  fun x => if x =? a then b else m x.

Definition chip_address_bytes (cap : Z) : nat :=
  if cap =? SRAM_1024 then 3%nat else 2%nat.

Definition with_state (c : Chip) (s : phase) : Chip :=
  mkChip (capacity c) (cs_pin c) (mode_register c) (memory c) s.

Definition next_pointer (c : Chip) (ptr : Z) : option Z :=
  let m := Z.shiftr (mode_register c) 6 in
  if m =? 3 then Some ((ptr + 1) mod capacity c)
  else if m =? 2 then Some (32 * (ptr / 32) + (ptr + 1) mod 32)
  else None.

Definition data_phase (mk : Z -> phase) (o : option Z) : phase :=
  match o with
  | Some p => mk p
  | None => Ignoring
  end.

Definition chip_select (pin : Z) (l : level) (c : Chip) : Chip :=
  if pin =? cs_pin c then
    match l with
    | HIGH => with_state c Deselected
    | LOW =>
        match state c with
        | Deselected => with_state c Command
        | _ => c
        end
    end
  else c.

Definition chip_transfer (b : Z) (c : Chip) : Z * Chip :=
  match state c with
  | Deselected => (floating, c)
  | Command =>
      (floating,
       with_state c
         (if (b =? SRAM_READ_CODE) || (b =? SRAM_WRITE_CODE)
          then Address b (chip_address_bytes (capacity c)) 0
          else if b =? SRAM_WRITE_MODE_REG then ModeWrite
          else if b =? SRAM_READ_MODE_REG then ModeRead
          else Ignoring))
  | Address cmd remaining acc =>
      let acc' := acc * 256 + b in
      (floating,
       with_state c
         match remaining with
         | S (S k) => Address cmd (S k) acc'
         | _ =>
             if cmd =? SRAM_READ_CODE
             then Reading (acc' mod capacity c)
             else Writing (acc' mod capacity c)
         end)
  | Reading ptr =>
      (memory c ptr, with_state c (data_phase Reading (next_pointer c ptr)))
  | Writing ptr =>
      (floating,
       mkChip (capacity c) (cs_pin c) (mode_register c)
              (store (memory c) ptr b)
              (data_phase Writing (next_pointer c ptr)))
  | ModeWrite =>
      (floating,
       mkChip (capacity c) (cs_pin c) b (memory c) Ignoring)
  | ModeRead => (mode_register c, with_state c Ignoring)
  | Ignoring => (floating, c)
  end.

#[export] Instance chip_bus : Bus Chip := {
  bus_digitalWrite := chip_select;
  bus_transfer := chip_transfer
}.

(** A chip waiting for a frame on pin [pin], in sequential mode. *)
Definition sequential (c : Chip) : Prop := Z.shiftr (mode_register c) 6 = 3.

(** A chip of capacity [cap] in sequential mode, attached to the driver's
    pin and waiting for a frame. *)
Definition plugged (cap : Z) (w : World Chip) : Prop :=
  capacity (wire w) = cap /\
  cs_pin (wire w) = _SSPin (this w) /\
  state (wire w) = Deselected /\
  sequential (wire w).

(** A driver that holds the capacity of the chip it is plugged to. *)
Definition ready (cap : Z) (w : World Chip) : Prop :=
  SRAMBytes (this w) = cap /\ plugged cap w.

(** *** An open line

    Nothing answers: every transfer reads back the level the line floats
    at. *)
Record OpenLine : Type := mkOpenLine { line_level : Z }.

#[export] Instance open_bus : Bus OpenLine := {
  bus_digitalWrite := fun _ _ l => l;
  bus_transfer := fun _ l => (line_level l, l)
}.

(** ** Reference functions on byte arrays *)

(** [n]-byte big-endian encoding of [x]. *)
Fixpoint big_endian (n : nat) (x : Z) : list Z :=
  match n with
  | O => []
  | S k => (x / 256 ^ Z.of_nat k) mod 256 :: big_endian k x
  end.

(** Bytes written one after the other from [p], wrapping at [cap]. *)
Fixpoint write_seq (cap : Z) (m : Z -> Z) (p : Z) (bs : list Z) : Z -> Z :=
  match bs with
  | [] => m
  | b :: rest => write_seq cap (store m p b) ((p + 1) mod cap) rest
  end.

(** [n] bytes read one after the other from [p], wrapping at [cap]. *)
Fixpoint read_seq (cap : Z) (m : Z -> Z) (p : Z) (n : nat) : list Z :=
  match n with
  | O => []
  | S k => m p :: read_seq cap m ((p + 1) mod cap) k
  end.

(** The world of a driver with detected capacity [cap] on pin [pin], in
    front of device [dev], before anything was sent. *)
Definition attach {B : Type} (cap pin : Z) (dev : B) : World B :=
  mkWorld (mkSRAM cap pin) dev [].

Definition blank_chip (cap pin : Z) : Chip :=
  mkChip cap pin SRAM_SEQ_MODE (fun _ => 0) Deselected.

(** ** Frames as lists of bytes

    What a sequence of transfers does to a device, as pure functions: the
    device after the bytes [bs], the replies it gave, and the events
    logged, oldest first. *)
Section Frames.
Context {B : Type} {bus : Bus B}.

Fixpoint after (bs : list Z) (b : B) : B :=
  match bs with
  | [] => b
  | x :: rest => after rest (snd (bus_transfer x b))
  end.

Fixpoint replies (bs : list Z) (b : B) : list Z :=
  match bs with
  | [] => []
  | x :: rest =>
      fst (bus_transfer x b) :: replies rest (snd (bus_transfer x b))
  end.

Fixpoint exchanged (bs : list Z) (b : B) : list event :=
  match bs with
  | [] => []
  | x :: rest =>
      Transfer x (fst (bus_transfer x b))
        :: exchanged rest (snd (bus_transfer x b))
  end.

End Frames.

(** The address bytes of [get] and [put], in the order they are sent. *)
Definition address_frame (cap addr : Z) : list Z :=
  (if cap =? SRAM_1024
   then [Z.land (to_uint8 (Z.shiftr addr 16)) 0xFF] else [])
    ++ [Z.land (to_uint8 (Z.shiftr addr 8)) 0xFF; to_uint8 addr].

(** The driver members are the same in the world an outcome is observed
    in, when there is one. *)
Definition members_unchanged {B A : Type} (w : World B) (o : outcome B A)
  : Prop :=
  match final_world o with
  | Some w' =>
      SRAMBytes (this w') = SRAMBytes (this w) /\
      _SSPin (this w') = _SSPin (this w)
  | None => True
  end.

(** Every byte the driver has put on the bus by the time an outcome is
    observed, oldest first. *)
Definition bus_output {B A : Type} (o : outcome B A) : list Z :=
  match final_world o with
  | Some w => sent_bytes (rev (trace w))
  | None => []
  end.

(** [put(a, v)] followed by [get(a, w)] into a value [w] of the same size
    that lies apart from the driver object: the bytes of [w]. *)
Definition read_back (a : Z) (v : list Z) (w : World Chip)
  : option (list Z) :=
  match (put a v ;; get a (length v) Apart) w with
  | Returns (_, value) _ => Some value
  | _ => None
  end.

(** ** Two set-ups used as concrete inputs *)

(** The smallest chip of the family on pin 10, its memory zeroed, in front
    of a driver that has detected it. *)
Definition chip64 : World Chip := attach SRAM_64 10 (blank_chip SRAM_64 10).

(** The same driver with nothing on the bus. *)
Definition open64 : World OpenLine := attach SRAM_64 10 (mkOpenLine 0xFF).

(** * Properties of the driver on any bus *)

Section DriverFacts.
Context {B : Type} {bus : Bus B}.

Lemma after_app (xs ys : list Z) (b : B) :
  after (xs ++ ys) b = after ys (after xs b).
Proof.
  revert b; induction xs as [|x xs IH]; intro b; cbn [after app].
  - reflexivity.
  - apply IH.
Qed.

Lemma replies_app (xs ys : list Z) (b : B) :
  replies (xs ++ ys) b = replies xs b ++ replies ys (after xs b).
Proof.
  revert b; induction xs as [|x xs IH]; intro b; cbn [replies after app].
  - reflexivity.
  - now rewrite IH.
Qed.

Lemma exchanged_app (xs ys : list Z) (b : B) :
  exchanged (xs ++ ys) b = exchanged xs b ++ exchanged ys (after xs b).
Proof.
  revert b; induction xs as [|x xs IH]; intro b; cbn [exchanged after app].
  - reflexivity.
  - now rewrite IH.
Qed.

Lemma sent_bytes_app (xs ys : list event) :
  sent_bytes (xs ++ ys) = sent_bytes xs ++ sent_bytes ys.
Proof.
  induction xs as [|[p l|s r] xs IH]; cbn [sent_bytes app].
  - reflexivity.
  - exact IH.
  - now rewrite IH.
Qed.

Lemma sent_bytes_exchanged (bs : list Z) (b : B) :
  sent_bytes (exchanged bs b) = bs.
Proof.
  revert b; induction bs as [|x bs IH]; intro b; cbn [exchanged sent_bytes].
  - reflexivity.
  - now rewrite IH.
Qed.

(** The write loop is one run of the bytes over the bus. *)
Lemma write_bytes_run (v : list Z) (w : World B) :
  write_bytes v w =
  Returns tt (mkWorld (this w) (after v (wire w))
                      (rev (exchanged v (wire w)) ++ trace w)).
Proof.
  revert w; induction v as [|x v IH]; intros [d b t].
  - reflexivity.
  - cbn [write_bytes bind SPI_transfer this wire trace].
    rewrite IH.
    cbn [this wire trace after exchanged rev fst snd].
    now rewrite <- app_assoc.
Qed.

(** The read loop is one run of dummy bytes over the bus; the replies are
    stored in the value as they come. *)
Lemma read_bytes_run (value : buffer) (n : nat) :
  forall (i : nat) (w : World B),
    read_bytes value i n w =
    Returns (replies (repeat 0 n) (wire w))
            (mkWorld (pokes value i (replies (repeat 0 n) (wire w)) (this w))
                     (after (repeat 0 n) (wire w))
                     (rev (exchanged (repeat 0 n) (wire w)) ++ trace w)).
Proof.
  induction n as [|n IH]; intros i [d b t].
  - reflexivity.
  - cbn [read_bytes]. unfold bind at 1. unfold SPI_transfer at 1.
    cbn [this wire trace]. unfold bind at 1. unfold store_byte at 1.
    cbn [this wire trace]. unfold bind at 1.
    rewrite IH.
    cbn [this wire trace after exchanged replies repeat rev fst snd ret
         pokes].
    now rewrite <- app_assoc.
Qed.

Lemma poke_outside (k b : Z) (d : MicrochipSRAM) :
  k < 0 \/ 5 <= k -> poke k b d = d.
Proof.
  intro H. unfold poke.
  destruct ((0 <=? k) && (k <? 4)) eqn:E1.
  - apply andb_true_iff in E1. destruct E1 as [E1 E2].
    apply Z.leb_le in E1. apply Z.ltb_lt in E2. lia.
  - destruct (k =? 4) eqn:E2; [apply Z.eqb_eq in E2; lia | reflexivity].
Qed.

(** Stores to a value that lies apart from the driver object leave the
    driver object alone. *)
Lemma pokes_apart (value : buffer) (bs : list Z) :
  forall (i : nat) (d : MicrochipSRAM),
    apart value (i + length bs) -> pokes value i bs d = d.
Proof.
  induction bs as [|b bs IH]; intros i d Ha; cbn [pokes].
  - reflexivity.
  - cbn [length] in Ha.
    rewrite IH by (now rewrite Nat.add_succ_comm).
    destruct value as [|offset]; cbn [poke_at]; [reflexivity |].
    apply poke_outside. cbn [apart] in Ha. lia.
Qed.

Lemma replies_length (bs : list Z) (b : B) :
  length (replies bs b) = length bs.
Proof.
  revert b; induction bs as [|x bs IH]; intro b; cbn [replies length].
  - reflexivity.
  - now rewrite IH.
Qed.

(** [put] in one piece: the reference it returns, and a single frame on
    the bus between the two edges of chip-select. *)
Lemma put_run (addr : Z) (v : list Z) (w : World B) :
  SRAMBytes (this w) <> 0 ->
  put addr v w =
  Returns (DeadLocal (to_uint32 (addr + sizeof v) mod SRAMBytes (this w)))
    (let pin := _SSPin (this w) in
     let b0 := bus_digitalWrite pin LOW (wire w) in
     let frame :=
       SRAM_WRITE_CODE :: address_frame (SRAMBytes (this w)) addr ++ v in
     mkWorld (this w)
             (bus_digitalWrite pin HIGH (after frame b0))
             (PinWrite pin HIGH
                :: rev (exchanged frame b0) ++ PinWrite pin LOW :: trace w)).
Proof.
  destruct w as [[c pin] b t]; cbn [this SRAMBytes _SSPin wire trace].
  intro Hc. apply Z.eqb_neq in Hc.
  unfold put, address_frame.
  unfold bind at 1. cbn [member this SRAMBytes].
  unfold bind at 1. unfold umod at 1. rewrite Hc.
  unfold bind, member, digitalWrite, SPI_transfer, when, ret.
  cbn [this wire trace SRAMBytes _SSPin].
  destruct (c =? SRAM_1024); unfold bind, ret, SPI_transfer;
    cbn [this wire trace SRAMBytes _SSPin];
    rewrite write_bytes_run;
    cbn [this wire trace app after exchanged rev fst snd SRAMBytes _SSPin];
    rewrite <- ?app_assoc; reflexivity.
Qed.

(** [get] in one piece, wherever the value lies: the closing edge of
    chip-select goes to the pin the driver object names after the value
    was filled. *)
Lemma get_run_any (addr : Z) (n : nat) (value : buffer) (w : World B) :
  SRAMBytes (this w) <> 0 ->
  get addr n value w =
  (let pin := _SSPin (this w) in
   let b0 := bus_digitalWrite pin LOW (wire w) in
   let header :=
     SRAM_READ_CODE :: address_frame (SRAMBytes (this w)) addr in
   let frame := header ++ repeat 0 n in
   let bytes := replies (repeat 0 n) (after header b0) in
   let d' := pokes value 0 bytes (this w) in
   Returns (DeadLocal (to_uint32 (addr + Z.of_nat n) mod SRAMBytes (this w)),
            bytes)
     (mkWorld d'
              (bus_digitalWrite (_SSPin d') HIGH (after frame b0))
              (PinWrite (_SSPin d') HIGH
                 :: rev (exchanged frame b0) ++ PinWrite pin LOW :: trace w))).
Proof.
  destruct w as [[c pin] b t]; cbn [this SRAMBytes _SSPin wire trace].
  intro Hc. apply Z.eqb_neq in Hc.
  unfold get, address_frame.
  unfold bind at 1. cbn [member this SRAMBytes].
  unfold bind at 1. unfold umod at 1. rewrite Hc.
  unfold bind, member, digitalWrite, SPI_transfer, when, ret.
  cbn [this wire trace SRAMBytes _SSPin].
  destruct (c =? SRAM_1024); unfold bind, ret, SPI_transfer;
    cbn [this wire trace SRAMBytes _SSPin];
    rewrite read_bytes_run;
    cbn [this wire trace app after exchanged rev fst snd SRAMBytes _SSPin];
    rewrite <- ?app_assoc; reflexivity.
Qed.

(** [get] in one piece, into a value that lies apart from the driver
    object. *)
Lemma get_run (addr : Z) (n : nat) (value : buffer) (w : World B) :
  SRAMBytes (this w) <> 0 ->
  apart value n ->
  get addr n value w =
  (let pin := _SSPin (this w) in
   let b0 := bus_digitalWrite pin LOW (wire w) in
   let header :=
     SRAM_READ_CODE :: address_frame (SRAMBytes (this w)) addr in
   let frame := header ++ repeat 0 n in
   Returns (DeadLocal (to_uint32 (addr + Z.of_nat n) mod SRAMBytes (this w)),
            replies (repeat 0 n) (after header b0))
     (mkWorld (this w)
              (bus_digitalWrite pin HIGH (after frame b0))
              (PinWrite pin HIGH
                 :: rev (exchanged frame b0) ++ PinWrite pin LOW :: trace w))).
Proof.
  intros Hc Ha. rewrite (get_run_any addr n value w Hc). cbv zeta.
  rewrite pokes_apart
    by (rewrite replies_length, repeat_length; exact Ha).
  reflexivity.
Qed.

(** With no capacity, the return address cannot be computed. *)
Lemma put_zero (addr : Z) (v : list Z) (w : World B) :
  SRAMBytes (this w) = 0 -> put addr v w = Undefined.
Proof.
  intro Hc. unfold put. unfold bind at 1. cbn [member].
  unfold bind at 1. unfold umod at 1. now rewrite Hc.
Qed.

Lemma get_zero (addr : Z) (n : nat) (value : buffer) (w : World B) :
  SRAMBytes (this w) = 0 -> get addr n value w = Undefined.
Proof.
  intro Hc. unfold get. unfold bind at 1. cbn [member].
  unfold bind at 1. unfold umod at 1. now rewrite Hc.
Qed.

End DriverFacts.

(** * The claims that hold on any bus *)

Section AnyBus.
Context {B : Type} {bus : Bus B}.

Lemma supported_cases (c : Z) :
  supported c ->
  c = SRAM_64 \/ c = SRAM_128 \/ c = SRAM_256 \/ c = SRAM_512
  \/ c = SRAM_1024.
Proof.
  unfold supported, supported_capacities; cbn [In].
  intuition auto.
Qed.

Lemma supported_pos (c : Z) : supported c -> 0 < c < 2 ^ 32.
Proof.
  intro H; apply supported_cases in H.
  unfold SRAM_64, SRAM_128, SRAM_256, SRAM_512, SRAM_1024 in H; lia.
Qed.

Lemma supported_divides (c : Z) : supported c -> (c | 2 ^ 32).
Proof.
  intro H; apply supported_cases in H.
  destruct H as [-> | [-> | [-> | [-> | ->]]]].
  - exists (2 ^ 19); reflexivity.
  - exists (2 ^ 18); reflexivity.
  - exists (2 ^ 17); reflexivity.
  - exists (2 ^ 16); reflexivity.
  - exists (2 ^ 15); reflexivity.
Qed.

(** The 32-bit wrap of the sum is invisible modulo a supported
    capacity. *)
Lemma wrapped_sum_mod (c x : Z) :
  supported c -> to_uint32 x mod c = x mod c.
Proof.
  intro H. unfold to_uint32.
  apply Z.mod_mod_divide, supported_divides, H.
Qed.

(** C2 on the code: [get] and [put] compute [(a + sizeof(T)) mod C] into
    their local [returnAddress] and return a reference to that local.  Any
    use of what a call returned reads a variable that no longer exists:
    it is undefined, for every capacity, address and value.  With a
    supported capacity the local did hold the wrapped address, below
    [C], when the method returned. *)
Theorem returned_reference_is_dead (w : World B) (a : Z) (n : nat)
        (value : buffer) (v : list Z) :
  (x <- get a n value; read_reference (fst x)) w = Undefined /\
  (r <- put a v; read_reference r) w = Undefined /\
  (supported (SRAMBytes (this w)) ->
   (exists bytes w',
       get a n value w =
       Returns (DeadLocal ((a + Z.of_nat n) mod SRAMBytes (this w)), bytes)
               w') /\
   (exists w',
       put a v w =
       Returns (DeadLocal ((a + sizeof v) mod SRAMBytes (this w))) w') /\
   0 <= (a + Z.of_nat n) mod SRAMBytes (this w) < SRAMBytes (this w) /\
   0 <= (a + sizeof v) mod SRAMBytes (this w) < SRAMBytes (this w)).
Proof.
  split; [| split].
  - unfold bind at 1.
    destruct (Z.eq_dec (SRAMBytes (this w)) 0) as [E | E].
    + now rewrite get_zero.
    + rewrite (get_run_any a n value w E). reflexivity.
  - unfold bind at 1.
    destruct (Z.eq_dec (SRAMBytes (this w)) 0) as [E | E].
    + now rewrite put_zero.
    + rewrite (put_run a v w E). reflexivity.
  - intro Hs. pose proof (supported_pos _ Hs) as Hpos.
    assert (Hnz : SRAMBytes (this w) <> 0) by lia.
    split; [| split; [| split]].
    + rewrite (get_run_any a n value w Hnz). cbv zeta.
      rewrite (wrapped_sum_mod _ _ Hs). eauto.
    + rewrite (put_run a v w Hnz). cbv zeta.
      rewrite (wrapped_sum_mod _ _ Hs). eauto.
    + apply Z.mod_pos_bound; lia.
    + apply Z.mod_pos_bound; lia.
Qed.

(** C5, as the code has it: [get] and [put] have no guard for an unknown
    capacity.  With [SRAMBytes] equal to zero they evaluate
    [(addr + sizeof(T)) % 0], which is undefined, before anything is
    sent, and no error value is returned; with any other capacity they
    do not meet that case. *)
Theorem zero_capacity_is_undefined (w : World B) (a : Z) (n : nat)
        (value : buffer) (v : list Z) :
  (get a n value w = Undefined <-> SRAMBytes (this w) = 0) /\
  (put a v w = Undefined <-> SRAMBytes (this w) = 0).
Proof.
  split; split; intro H.
  - destruct (Z.eq_dec (SRAMBytes (this w)) 0) as [E | E]; [exact E |].
    rewrite (get_run_any a n value w E) in H. discriminate H.
  - now apply get_zero.
  - destruct (Z.eq_dec (SRAMBytes (this w)) 0) as [E | E]; [exact E |].
    rewrite (put_run a v w E) in H. discriminate H.
  - now apply put_zero.
Qed.

(** *** The address bytes *)

Lemma land_byte (x : Z) : Z.land (to_uint8 x) 0xFF = x mod 256.
Proof.
  unfold to_uint8. change 0xFF with (Z.ones 8).
  rewrite Z.land_ones by lia.
  change (2 ^ 8) with 256. apply Z.mod_mod. lia.
Qed.

Lemma address_frame_big_endian (cap a : Z) :
  address_frame cap a =
  big_endian (if cap =? SRAM_1024 then 3 else 2) a.
Proof.
  unfold address_frame.
  rewrite !land_byte, !Z.shiftr_div_pow2 by lia.
  unfold to_uint8. change (2 ^ 8) with 256.
  destruct (cap =? SRAM_1024); cbn [big_endian app Z.of_nat];
    change (256 ^ 0) with 1; rewrite Z.div_1_r; reflexivity.
Qed.

(** A big-endian encoding only sees the low [8 * n] bits. *)
Lemma big_endian_low_bits (n : nat) (x : Z) :
  big_endian n x = big_endian n (x mod 256 ^ Z.of_nat n).
Proof.
  assert (G : forall k m : nat, (k <= m)%nat ->
            big_endian k x = big_endian k (x mod 256 ^ Z.of_nat m)).
  { induction k as [|k IH]; intros m Hkm; cbn [big_endian].
    - reflexivity.
    - f_equal.
      + assert (E : 256 ^ Z.of_nat m
                    = 256 ^ Z.of_nat k * (256 * 256 ^ Z.of_nat (m - S k))).
        { rewrite <- Z.pow_succ_r, <- Z.pow_add_r by lia.
          f_equal. lia. }
        set (q := x / 256 ^ Z.of_nat m).
        assert (E' : x mod 256 ^ Z.of_nat m
                     = x + (- (256 ^ Z.of_nat (m - S k) * q) * 256)
                           * 256 ^ Z.of_nat k).
        { rewrite Z.mod_eq by lia. fold q. rewrite E. ring. }
        rewrite E', Z.div_add by lia.
        replace (- (256 ^ Z.of_nat (m - S k) * q) * 256)
          with ((- (256 ^ Z.of_nat (m - S k) * q)) * 256) by ring.
        now rewrite Z.mod_add by lia.
      + apply IH. lia. }
  apply G. lia.
Qed.

Lemma frame_output (pin pin' : Z) (frame : list Z) (b0 : B)
      (t : list event) :
  sent_bytes
    (rev (PinWrite pin' HIGH
            :: rev (exchanged frame b0) ++ PinWrite pin LOW :: t))
  = sent_bytes (rev t) ++ frame.
Proof.
  cbn [rev]. rewrite rev_app_distr, rev_involutive. cbn [rev].
  rewrite !sent_bytes_app, sent_bytes_exchanged.
  cbn [sent_bytes]. now rewrite !app_nil_r.
Qed.

Lemma address_bytes_cases (d : MicrochipSRAM) :
  (address_bytes d = 3%nat <-> SRAMBytes d = SRAM_1024) /\
  (address_bytes d = 2%nat <-> SRAMBytes d <> SRAM_1024).
Proof.
  unfold address_bytes.
  destruct (SRAMBytes d =? SRAM_1024) eqn:E.
  - apply Z.eqb_eq in E. repeat split; intros; congruence.
  - apply Z.eqb_neq in E. repeat split; intros; congruence.
Qed.

(** C7, as the code has it: with a capacity [C > 0], the address bytes of
    a [get] or [put] frame are the big-endian encoding of the low 16 bits
    of the address (the low 24 bits when [C = 131072]), most significant
    byte first; the address is not reduced modulo [C] before it is sent.
    Three bytes are sent exactly when [C = 131072], two otherwise.  For
    an address below a supported capacity the bytes encode
    [a mod C]. *)
Theorem address_bytes_on_the_bus (w : World B) (a : Z) (n : nat)
        (value : buffer) (v : list Z) :
  0 < SRAMBytes (this w) ->
  bus_output (get a n value w)
  = sent_bytes (rev (trace w))
      ++ SRAM_READ_CODE
      :: big_endian (address_bytes (this w))
                    (a mod 256 ^ Z.of_nat (address_bytes (this w)))
      ++ repeat 0 n
  /\
  bus_output (put a v w)
  = sent_bytes (rev (trace w))
      ++ SRAM_WRITE_CODE
      :: big_endian (address_bytes (this w))
                    (a mod 256 ^ Z.of_nat (address_bytes (this w)))
      ++ v
  /\
  (address_bytes (this w) = 3%nat <-> SRAMBytes (this w) = SRAM_1024) /\
  (address_bytes (this w) = 2%nat <-> SRAMBytes (this w) <> SRAM_1024) /\
  (supported (SRAMBytes (this w)) -> 0 <= a < SRAMBytes (this w) ->
   a mod 256 ^ Z.of_nat (address_bytes (this w))
   = a mod SRAMBytes (this w)).
Proof.
  intro Hpos.
  assert (Hnz : SRAMBytes (this w) <> 0) by lia.
  split; [| split; [| split; [| split]]].
  - rewrite (get_run_any a n value w Hnz). cbv zeta.
    unfold bus_output; cbn [final_world trace].
    rewrite frame_output, address_frame_big_endian.
    rewrite <- big_endian_low_bits. reflexivity.
  - rewrite (put_run a v w Hnz). cbv zeta.
    unfold bus_output; cbn [final_world trace].
    rewrite frame_output, address_frame_big_endian.
    rewrite <- big_endian_low_bits. reflexivity.
  - apply address_bytes_cases.
  - apply address_bytes_cases.
  - intros Hs Ha. rewrite (Z.mod_small a (SRAMBytes (this w))) by lia.
    apply Z.mod_small. unfold address_bytes.
    apply supported_cases in Hs.
    unfold SRAM_64, SRAM_128, SRAM_256, SRAM_512 in Hs.
    destruct (SRAMBytes (this w) =? SRAM_1024) eqn:E.
    + apply Z.eqb_eq in E. unfold SRAM_1024 in E.
      change (256 ^ Z.of_nat 3) with 16777216. lia.
    + apply Z.eqb_neq in E.
      change (256 ^ Z.of_nat 2) with 65536. lia.
Qed.

(** *** The loop of [fillMemory] *)

Lemma fillMemory_unfold (fuel : nat) (a : Z) (v : list Z) (w : World B) :
  fillMemory fuel a v w =
  if a <? to_uint32 (SRAMBytes (this w) - sizeof v) then
    match fuel with
    | O => OutOfFuel w
    | S k =>
        match put a v w with
        | Returns r w' => (addr' <- read_reference r; fillMemory k addr' v) w'
        | Undefined => Undefined
        | OutOfFuel w' => OutOfFuel w'
        end
    end
  else Returns tt w.
Proof.
  destruct fuel; cbn [fillMemory]; unfold bind at 1; cbn [member];
    destruct (a <? to_uint32 (SRAMBytes (this w) - sizeof v));
    reflexivity.
Qed.



(** The guard of the loop is false at entry: the body never runs. *)
Lemma fillMemory_guard_false (fuel : nat) (a : Z) (v : list Z)
      (w : World B) :
  to_uint32 (SRAMBytes (this w) - sizeof v) <= a ->
  fillMemory fuel a v w = Returns tt w.
Proof.
  intro H. rewrite fillMemory_unfold.
  destruct (a <? to_uint32 (SRAMBytes (this w) - sizeof v)) eqn:E;
    [apply Z.ltb_lt in E; lia | reflexivity].
Qed.

(** The guard of the loop is true at entry: the first iteration does not
    complete, its assignment reads what [put] returned. *)
Lemma fillMemory_guard_true (fuel : nat) (a : Z) (v : list Z)
      (w : World B) :
  a < to_uint32 (SRAMBytes (this w) - sizeof v) ->
  fillMemory (S fuel) a v w = Undefined.
Proof.
  intro H. rewrite fillMemory_unfold.
  destruct (a <? to_uint32 (SRAMBytes (this w) - sizeof v)) eqn:E;
    [| apply Z.ltb_ge in E; lia].
  destruct (Z.eq_dec (SRAMBytes (this w)) 0) as [Z0 | NZ].
  - now rewrite put_zero.
  - rewrite (put_run a v w NZ). reflexivity.
Qed.

(** C4 on the code: whenever the guard of the [fillMemory] loop holds at
    entry, the loop does not get past its first iteration: the
    assignment [addr = put(addr,value)] reads the reference to the dead
    local that [put] returned, which is undefined.  At most the first
    copy of the pattern was sent; the memory is not filled. *)
Theorem fillMemory_reads_dead_reference (w : World B) (a : Z)
        (v : list Z) (fuel : nat) :
  a < to_uint32 (SRAMBytes (this w) - sizeof v) ->
  fillMemory (S fuel) a v w = Undefined.
Proof. apply fillMemory_guard_true. Qed.


(** *** The driver object is not written *)

Lemma members_unchanged_get (w : World B) (a : Z) (n : nat)
      (value : buffer) :
  apart value n -> members_unchanged w (get a n value w).
Proof.
  intro Ha. destruct (Z.eq_dec (SRAMBytes (this w)) 0) as [E | E].
  - rewrite get_zero by exact E. exact I.
  - rewrite get_run by assumption. cbv zeta.
    unfold members_unchanged; cbn [final_world this]. now split.
Qed.

Lemma members_unchanged_put (w : World B) (a : Z) (v : list Z) :
  members_unchanged w (put a v w).
Proof.
  destruct (Z.eq_dec (SRAMBytes (this w)) 0) as [E | E].
  - rewrite put_zero by exact E. exact I.
  - rewrite put_run by exact E. cbv zeta.
    unfold members_unchanged; cbn [final_world this]. now split.
Qed.

Lemma members_unchanged_fillMemory (v : list Z) (fuel : nat) (a : Z)
      (w : World B) :
  members_unchanged w (fillMemory fuel a v w).
Proof.
  destruct (Z_lt_ge_dec a (to_uint32 (SRAMBytes (this w) - sizeof v)))
    as [L | G].
  - destruct fuel as [|k].
    + rewrite fillMemory_unfold.
      destruct (a <? to_uint32 (SRAMBytes (this w) - sizeof v));
        unfold members_unchanged; cbn [final_world]; now split.
    + rewrite fillMemory_guard_true by exact L. exact I.
  - rewrite fillMemory_guard_false by lia.
    unfold members_unchanged; cbn [final_world]. now split.
Qed.

(** C10, as the code has it: [put], [fillMemory], and [get] into a value
    that shares no byte with the driver object, leave the data members
    of the driver as they found them: [SRAMBytes] and [_SSPin] have the
    same values in every world the operation is observed in. *)
Theorem driver_members_unchanged (w : World B) (a : Z) (n : nat)
        (value : buffer) (v : list Z) (fuel : nat) :
  apart value n ->
  members_unchanged w (get a n value w) /\
  members_unchanged w (put a v w) /\
  members_unchanged w (fillMemory fuel a v w).
Proof.
  intro Ha. split; [| split].
  - now apply members_unchanged_get.
  - apply members_unchanged_put.
  - apply members_unchanged_fillMemory.
Qed.

End AnyBus.

(** * The driver in front of the simulated chip *)

Section OnTheChip.

Lemma store_same (m : Z -> Z) (a b : Z) : store m a b a = b.
Proof. unfold store. now rewrite Z.eqb_refl. Qed.

Lemma store_other (m : Z -> Z) (a b x : Z) : x <> a -> store m a b x = m x.
Proof. intro H. unfold store. apply Z.eqb_neq in H. now rewrite H. Qed.

Lemma mod_wrap_once (x c : Z) : c <= x < 2 * c -> x mod c = x - c.
Proof.
  intro H. rewrite <- (Z.mod_add x (-1) c) by lia.
  apply Z.mod_small. lia.
Qed.

Lemma step_not_back (c p k : Z) :
  0 <= p < c -> 0 < k < c -> (p + k) mod c <> p.
Proof.
  intros Hp Hk. destruct (Z_lt_ge_dec (p + k) c) as [L | G].
  - rewrite Z.mod_small by lia. lia.
  - rewrite mod_wrap_once by lia. lia.
Qed.

(** Writing leaves alone what lies outside the written run. *)
Lemma write_seq_skip (c : Z) (bs : list Z) :
  forall (m : Z -> Z) (p q : Z),
    0 < c -> 0 <= p < c ->
    (forall i, 0 <= i < Z.of_nat (length bs) -> (p + i) mod c <> q) ->
    write_seq c m p bs q = m q.
Proof.
  induction bs as [|b bs IH]; intros m p q Hc Hp Hq; cbn [write_seq].
  - reflexivity.
  - rewrite IH.
    + apply store_other. intro E.
      apply (Hq 0); [cbn [length]; lia |].
      rewrite Z.add_0_r, Z.mod_small by lia. now symmetry.
    + exact Hc.
    + apply Z.mod_pos_bound; lia.
    + intros i Hi. rewrite Z.add_mod_idemp_l by lia.
      replace (p + 1 + i) with (p + (i + 1)) by ring.
      apply Hq. cbn [length]. lia.
Qed.

(** A run that fits in the array is read back as it was written. *)
Lemma read_write_seq (c : Z) (bs : list Z) :
  forall (m : Z -> Z) (p : Z),
    0 <= p < c ->
    Z.of_nat (length bs) <= c ->
    read_seq c (write_seq c m p bs) p (length bs) = bs.
Proof.
  induction bs as [|b bs IH]; intros m p Hp Hlen;
    cbn [write_seq read_seq length].
  - reflexivity.
  - cbn [length] in Hlen. f_equal.
    + rewrite write_seq_skip.
      * apply store_same.
      * lia.
      * apply Z.mod_pos_bound; lia.
      * intros i Hi. rewrite Z.add_mod_idemp_l by lia.
        replace (p + 1 + i) with (p + (i + 1)) by ring.
        apply step_not_back; lia.
    + apply IH; [apply Z.mod_pos_bound |]; lia.
Qed.

(** *** The data phase in sequential mode *)

Lemma chip_write_data (cap pin mode : Z) (v : list Z) :
  Z.shiftr mode 6 = 3 ->
  forall (m : Z -> Z) (p : Z),
    chip_select pin HIGH (after v (mkChip cap pin mode m (Writing p)))
    = mkChip cap pin mode (write_seq cap m p v) Deselected.
Proof.
  intro Hseq. induction v as [|b v IH]; intros m p;
    cbn [after write_seq].
  - unfold chip_select; cbn [cs_pin]. now rewrite Z.eqb_refl.
  - cbn [bus_transfer chip_bus]. unfold chip_transfer at 1.
    cbn [state capacity cs_pin mode_register memory snd].
    unfold next_pointer; cbn [mode_register capacity].
    rewrite Hseq. cbn [Z.eqb Pos.eqb data_phase]. apply IH.
Qed.

Lemma chip_read_data (cap pin mode : Z) (m : Z -> Z) (n : nat) :
  Z.shiftr mode 6 = 3 ->
  forall p : Z,
    replies (repeat 0 n) (mkChip cap pin mode m (Reading p))
    = read_seq cap m p n
    /\ chip_select pin HIGH
         (after (repeat 0 n) (mkChip cap pin mode m (Reading p)))
       = mkChip cap pin mode m Deselected.
Proof.
  intro Hseq. induction n as [|n IH]; intro p;
    cbn [repeat replies after read_seq].
  - split; [reflexivity |].
    unfold chip_select; cbn [cs_pin]. now rewrite Z.eqb_refl.
  - cbn [bus_transfer chip_bus]. unfold chip_transfer, with_state.
    cbn [state capacity cs_pin mode_register memory fst snd].
    unfold next_pointer; cbn [mode_register capacity].
    rewrite Hseq. cbn [Z.eqb Pos.eqb data_phase].
    destruct (IH ((p + 1) mod cap)) as [E1 E2].
    now rewrite E1, E2.
Qed.

(** *** The command and address phase *)

Lemma decode2 (a : Z) :
  (0 * 256 + (a / 256 ^ 1) mod 256) * 256 + (a / 256 ^ 0) mod 256
  = a mod 65536.
Proof.
  change (256 ^ 1) with 256. change (256 ^ 0) with 1.
  rewrite Z.div_1_r. Z.div_mod_to_equations. lia.
Qed.

Lemma decode3 (a : Z) :
  ((0 * 256 + (a / 256 ^ 2) mod 256) * 256 + (a / 256 ^ 1) mod 256) * 256
  + (a / 256 ^ 0) mod 256
  = a mod 16777216.
Proof.
  change (256 ^ 2) with 65536.
  change (256 ^ 1) with 256. change (256 ^ 0) with 1.
  rewrite Z.div_1_r. Z.div_mod_to_equations. lia.
Qed.

Lemma supported_divides_width (c : Z) :
  supported c ->
  (c | if c =? SRAM_1024 then 16777216 else 65536).
Proof.
  intro H; apply supported_cases in H.
  destruct H as [-> | [-> | [-> | [-> | ->]]]]; cbn.
  - exists 8; reflexivity.
  - exists 4; reflexivity.
  - exists 2; reflexivity.
  - exists 1; reflexivity.
  - exists 128; reflexivity.
Qed.

(** After chip-select, command and address, a chip that saw the address
    width it expects points at the address, reduced to its capacity. *)
Lemma chip_header (cap pin mode : Z) (m : Z -> Z) (cmd a : Z) :
  supported cap ->
  cmd = SRAM_READ_CODE \/ cmd = SRAM_WRITE_CODE ->
  after (cmd :: address_frame cap a)
        (chip_select pin LOW (mkChip cap pin mode m Deselected))
  = mkChip cap pin mode m
           (if cmd =? SRAM_READ_CODE
            then Reading (a mod cap) else Writing (a mod cap)).
Proof.
  intros Hs Hcmd.
  pose proof (supported_divides_width cap Hs) as Hdiv.
  rewrite address_frame_big_endian.
  unfold chip_select; cbn [cs_pin state with_state capacity
                           mode_register memory].
  rewrite Z.eqb_refl.
  cbn [after bus_transfer chip_bus]. unfold chip_transfer at 1.
  cbn [state with_state capacity cs_pin mode_register memory snd].
  replace ((cmd =? SRAM_READ_CODE) || (cmd =? SRAM_WRITE_CODE))
    with true by (destruct Hcmd as [-> | ->]; reflexivity).
  unfold chip_address_bytes.
  destruct (cap =? SRAM_1024);
    cbn [big_endian after bus_transfer chip_bus Z.of_nat Pos.of_succ_nat
         Pos.succ];
    unfold chip_transfer;
    cbn [state with_state capacity cs_pin mode_register memory snd].
  - rewrite decode3, Z.mod_mod_divide by exact Hdiv. reflexivity.
  - rewrite decode2, Z.mod_mod_divide by exact Hdiv. reflexivity.
Qed.


(** *** [put] and [get] on a ready chip *)

Lemma put_chip (c a : Z) (v : list Z) (w : World Chip) :
  supported c -> ready c w ->
  exists t,
    put a v w =
    Returns (DeadLocal ((a + sizeof v) mod c))
      (mkWorld (this w)
         (mkChip c (cs_pin (wire w)) (mode_register (wire w))
                 (write_seq c (memory (wire w)) (a mod c) v) Deselected)
         t).
Proof.
  destruct w as [[cap pin] [ccap cpin mode m st] t].
  unfold ready, plugged, sequential;
    cbn [this wire SRAMBytes _SSPin capacity cs_pin state mode_register
         memory].
  intros Hs (-> & -> & -> & -> & Hseq).
  pose proof (supported_pos _ Hs).
  rewrite put_run by (cbn [this SRAMBytes]; lia).
  cbv zeta; cbn [this wire trace SRAMBytes _SSPin].
  rewrite (wrapped_sum_mod _ _ Hs).
  rewrite app_comm_cons, after_app.
  cbn [bus_digitalWrite chip_bus].
  rewrite chip_header by (auto using Hs).
  change (SRAM_WRITE_CODE =? SRAM_READ_CODE) with false. cbv iota.
  rewrite chip_write_data by exact Hseq.
  eexists; reflexivity.
Qed.

Lemma get_chip (c a : Z) (n : nat) (w : World Chip) :
  supported c -> ready c w ->
  exists t,
    get a n Apart w =
    Returns (DeadLocal ((a + Z.of_nat n) mod c),
             read_seq c (memory (wire w)) (a mod c) n)
      (mkWorld (this w) (wire w) t).
Proof.
  destruct w as [[cap pin] [ccap cpin mode m st] t].
  unfold ready, plugged, sequential;
    cbn [this wire SRAMBytes _SSPin capacity cs_pin state mode_register
         memory].
  intros Hs (-> & -> & -> & -> & Hseq).
  pose proof (supported_pos _ Hs).
  rewrite get_run; [| cbn [this SRAMBytes]; lia | exact I].
  cbv zeta; cbn [this wire trace SRAMBytes _SSPin].
  rewrite (wrapped_sum_mod _ _ Hs).
  rewrite after_app.
  cbn [bus_digitalWrite chip_bus].
  rewrite chip_header by (auto using Hs).
  change (SRAM_READ_CODE =? SRAM_READ_CODE) with true. cbv iota.
  destruct (chip_read_data c pin mode m n Hseq (a mod c)) as [E1 E2].
  rewrite E1, E2.
  eexists; reflexivity.
Qed.

Lemma ready_after_write (c : Z) (w : World Chip) (m : Z -> Z)
      (t : list event) :
  ready c w ->
  ready c (mkWorld (this w)
             (mkChip c (cs_pin (wire w)) (mode_register (wire w)) m
                     Deselected) t).
Proof.
  unfold ready, plugged, sequential.
  cbn [this wire capacity cs_pin state mode_register].
  intuition auto.
Qed.

(** C3, as the code has it: on a chip of supported capacity [C] in
    sequential mode, for an address [a] in [[0, C)] and a value of at
    most [C] bytes, [put(a, v)] followed by [get(a, w)] into a value of
    the same size gives back the bytes of [v]. *)
Theorem put_get_roundtrip (c a : Z) (v : list Z) (w : World Chip) :
  supported c -> ready c w ->
  0 <= a < c ->
  sizeof v <= c ->
  read_back a v w = Some v.
Proof.
  intros Hs Hr Ha Hlen.
  unfold read_back, bind.
  destruct (put_chip c a v w Hs Hr) as (t & ->).
  match goal with
  | |- context [get a (length v) Apart ?w1] =>
      destruct (get_chip c a (length v) w1 Hs
                  (ready_after_write c w _ t Hr)) as (t' & ->)
  end.
  cbn [wire memory].
  rewrite Z.mod_small by lia.
  now rewrite read_write_seq by (unfold sizeof in Hlen; lia).
Qed.

(** *** [clearMemory] *)

Lemma clear_from_chip (c b : Z) (n : nat) :
  supported c ->
  forall (a : Z) (w : World Chip),
    ready c w ->
    0 <= a -> a + Z.of_nat n <= c ->
    exists w',
      clear_from n a b w = Returns tt w' /\
      ready c w' /\
      (forall j, a <= j < a + Z.of_nat n -> memory (wire w') j = b) /\
      (forall j, j < a -> memory (wire w') j = memory (wire w) j).
Proof.
  intro Hs. induction n as [|n IH]; intros a w Hr Ha Hn.
  - exists w. cbn [clear_from].
    split; [reflexivity |]. split; [exact Hr |]. split.
    + intros j Hj. cbn [Z.of_nat] in Hj. lia.
    + reflexivity.
  - cbn [clear_from]. unfold bind.
    destruct (put_chip c a [b] w Hs Hr) as (t & ->).
    cbn [write_seq]. rewrite Z.mod_small by lia.
    match goal with
    | |- context [clear_from n (a + 1) b ?w1] =>
        destruct (IH (a + 1) w1 (ready_after_write c w _ t Hr))
          as (w' & Hrun & Hr' & Hin & Hout); try lia
    end.
    exists w'. split; [exact Hrun |]. split; [exact Hr' |].
    cbn [wire memory] in Hout. split.
    + intros j Hj. destruct (Z.eq_dec j a) as [-> | Hne].
      * rewrite Hout by lia. apply store_same.
      * apply Hin. lia.
    + intros j Hj. rewrite Hout by lia. apply store_other. lia.
Qed.

(** C8: with a detected capacity [C] and a chip of that capacity,
    [clearMemory(b)] writes [b] at every address from 0 to [C - 1]:
    afterwards every offset of the chip holds [b], and reading any
    offset in [[0, C)] yields [b]. *)
Theorem clearMemory_fills (c b : Z) (w : World Chip) :
  supported c -> ready c w ->
  exists w',
    clearMemory b w = Returns tt w' /\
    ready c w' /\
    forall i, 0 <= i < c ->
      memory (wire w') i = b /\
      exists w'',
        get i 1 Apart w' = Returns (DeadLocal ((i + 1) mod c), [b]) w''.
Proof.
  intros Hs Hr. pose proof (supported_pos _ Hs) as Hpos.
  unfold clearMemory. unfold bind at 1. cbn [member].
  destruct Hr as [Hc Hp]. rewrite Hc.
  destruct (clear_from_chip c b (Z.to_nat c) Hs 0 w (conj Hc Hp))
    as (w' & Hrun & Hr' & Hin & _); try lia.
  exists w'. split; [exact Hrun |]. split; [exact Hr' |].
  intros i Hi.
  assert (Hb : memory (wire w') i = b) by (apply Hin; lia).
  split; [exact Hb |].
  destruct (get_chip c i 1 w' Hs Hr') as (t & ->).
  cbn [read_seq]. rewrite (Z.mod_small i c) by lia.
  rewrite Hb. eexists; reflexivity.
Qed.

End OnTheChip.

(** * Capacity detection *)

Section Detection.
Context {B : Type} {bus : Bus B}.

Lemma to_uint8_shift (a : Z) (k : nat) :
  to_uint8 (Z.shiftr a (8 * Z.of_nat k)) = (a / 256 ^ Z.of_nat k) mod 256.
Proof.
  unfold to_uint8. rewrite Z.shiftr_div_pow2 by lia.
  rewrite Z.pow_mul_r by lia. reflexivity.
Qed.

Lemma send_address_run (width : nat) (a : Z) (w : World B) :
  send_address width a w =
  Returns tt (mkWorld (this w) (after (big_endian width a) (wire w))
                (rev (exchanged (big_endian width a) (wire w)) ++ trace w)).
Proof.
  revert w; induction width as [|k IH]; intros [d b t].
  - reflexivity.
  - cbn [send_address big_endian]. unfold bind, SPI_transfer.
    cbn [this wire trace]. rewrite IH, to_uint8_shift.
    cbn [this wire trace after exchanged rev fst snd].
    now rewrite <- app_assoc.
Qed.

(** The read-back: the reply to the dummy byte that follows the read
    command and the address of byte 0. *)
Lemma read_first_byte_run (pin : Z) (width : nat) (w : World B) :
  exists t,
    read_first_byte pin width w =
    (let b1 := after (SRAM_READ_CODE :: big_endian width 0)
                     (bus_digitalWrite pin LOW (wire w)) in
     Returns (fst (bus_transfer 0 b1))
       (mkWorld (this w)
                (bus_digitalWrite pin HIGH (snd (bus_transfer 0 b1))) t)).
Proof.
  destruct w as [d b t]. unfold read_first_byte.
  unfold bind at 1. unfold digitalWrite at 1. cbn [this wire trace].
  unfold bind at 1. unfold SPI_transfer at 1. cbn [this wire trace].
  unfold bind at 1. rewrite send_address_run. cbn [this wire trace].
  unfold bind, SPI_transfer, digitalWrite, ret. cbn [this wire trace].
  eexists; reflexivity.
Qed.

Lemma write_marker_run (pin : Z) (width : nat) (a : Z) (pattern : list Z)
      (w : World B) :
  exists t,
    write_marker pin width a pattern w =
    Returns tt
      (mkWorld (this w)
         (bus_digitalWrite pin HIGH
            (after (SRAM_WRITE_CODE :: big_endian width a ++ pattern)
                   (bus_digitalWrite pin LOW (wire w)))) t).
Proof.
  destruct w as [d b t]. unfold write_marker.
  unfold bind at 1. unfold digitalWrite at 1. cbn [this wire trace].
  unfold bind at 1. unfold SPI_transfer at 1. cbn [this wire trace].
  unfold bind at 1. rewrite send_address_run. cbn [this wire trace].
  unfold bind at 1. rewrite write_bytes_run. cbn [this wire trace].
  unfold digitalWrite. cbn [this wire trace after].
  rewrite after_app.
  eexists; reflexivity.
Qed.

(** A probe always comes back, and does not touch the driver object. *)
Lemma wraps_at_run (c : Z) (w : World B) :
  exists r w', wraps_at c w = Returns r w' /\ this w' = this w.
Proof.
  unfold wraps_at. unfold bind at 1. cbn [member].
  unfold bind at 1.
  destruct (read_first_byte_run (_SSPin (this w))
              (profile_address_bytes c) w) as (t1 & ->).
  cbv zeta. unfold bind at 1.
  match goal with
  | |- context [write_marker ?p ?n ?a ?m ?w1] =>
      destruct (write_marker_run p n a m w1) as (t2 & ->)
  end.
  unfold bind at 1.
  match goal with
  | |- context [read_first_byte ?p ?n ?w1] =>
      destruct (read_first_byte_run p n w1) as (t3 & ->)
  end.
  cbv zeta. unfold ret. eexists; eexists; split; reflexivity.
Qed.

(** Detection changes nothing but the capacity. *)
Lemma detect_run (cs : list Z) :
  forall w : World B,
    exists w', detect cs w = Returns tt w'
               /\ _SSPin (this w') = _SSPin (this w).
Proof.
  induction cs as [|c cs IH]; intro w; cbn [detect].
  - exists w. split; reflexivity.
  - unfold bind.
    destruct (wraps_at_run c w) as (r & w1 & -> & Hthis).
    destruct r.
    + eexists. split; [reflexivity |]. cbn [this _SSPin]. now rewrite Hthis.
    + destruct (IH w1) as (w' & -> & Hpin).
      exists w'. split; [reflexivity |]. now rewrite Hpin, Hthis.
Qed.

Lemma detect_no_signal (cs : list Z) :
  (forall c w r w',
      In c cs -> wraps_at c w = Returns r w' -> r = false) ->
  forall w : World B,
    exists w', detect cs w = Returns tt w' /\ this w' = this w.
Proof.
  induction cs as [|c cs IH]; intros Hno w; cbn [detect].
  - exists w. split; reflexivity.
  - unfold bind.
    destruct (wraps_at_run c w) as (r & w1 & E & Hthis).
    rewrite E.
    rewrite (Hno c w r w1 (or_introl eq_refl) E).
    destruct (IH (fun c' w0 r' w0' Hin => Hno c' w0 r' w0' (or_intror Hin))
                 w1) as (w' & -> & Hthis').
    exists w'. split; [reflexivity |]. now rewrite Hthis', Hthis.
Qed.

Lemma construct_unfold (pin : Z) (dev : B) :
  exists t,
    construct pin dev =
    detect supported_capacities
      (mkWorld (mkSRAM 0 pin)
         (bus_digitalWrite pin HIGH
            (after [SRAM_WRITE_MODE_REG; SRAM_SEQ_MODE]
               (bus_digitalWrite pin LOW
                  (bus_digitalWrite pin HIGH dev)))) t).
Proof.
  unfold construct, write_mode_register, bind, digitalWrite, SPI_transfer.
  cbn [this wire trace after]. eexists; reflexivity.
Qed.

(** C6: on a bus where no candidate capacity ever shows a wraparound
    signal, the constructor leaves [SRAMBytes] at its initial zero: the
    detection failure is reported as the unknown capacity, and no
    capacity is made up. *)
Theorem detection_failure_leaves_zero (pin : Z) (dev : B) :
  (forall c w r w',
      In c supported_capacities ->
      wraps_at c w = Returns r w' -> r = false) ->
  exists w',
    construct pin dev = Returns tt w' /\ SRAMBytes (this w') = 0.
Proof.
  intro Hno.
  destruct (construct_unfold pin dev) as (t & ->).
  match goal with
  | |- context [detect _ ?w0] =>
      destruct (detect_no_signal supported_capacities Hno w0)
        as (w' & -> & Hthis)
  end.
  exists w'. split; [reflexivity |]. now rewrite Hthis.
Qed.

End Detection.

Section DetectionOnTheChip.

Lemma chip_width (cap : Z) :
  chip_address_bytes cap = if cap =? SRAM_1024 then 3%nat else 2%nat.
Proof. reflexivity. Qed.

(** Reading byte 0 with the address width the chip expects. *)
Lemma chip_read_first (cap pin mode : Z) (m : Z -> Z) :
  supported cap ->
  let c := mkChip cap pin mode m Deselected in
  let b1 := after (SRAM_READ_CODE :: big_endian (chip_address_bytes cap) 0)
                  (chip_select pin LOW c) in
  fst (chip_transfer 0 b1) = m 0 /\
  chip_select pin HIGH (snd (chip_transfer 0 b1)) = c.
Proof.
  intros Hs c b1. subst b1 c.
  rewrite chip_width, <- address_frame_big_endian.
  rewrite chip_header by auto.
  change (SRAM_READ_CODE =? SRAM_READ_CODE) with true. cbv iota.
  rewrite Z.mod_0_l by (pose proof (supported_pos _ Hs); lia).
  unfold chip_transfer, with_state.
  cbn [state capacity cs_pin mode_register memory fst snd].
  split; [reflexivity |].
  unfold chip_select, with_state.
  cbn [state capacity cs_pin mode_register memory].
  now rewrite Z.eqb_refl.
Qed.

(** Writing with the address width the chip expects. *)
Lemma chip_write_run (cap pin mode : Z) (m : Z -> Z) (a : Z)
      (pattern : list Z) :
  supported cap -> Z.shiftr mode 6 = 3 ->
  chip_select pin HIGH
    (after (SRAM_WRITE_CODE
              :: big_endian (chip_address_bytes cap) a ++ pattern)
           (chip_select pin LOW (mkChip cap pin mode m Deselected)))
  = mkChip cap pin mode (write_seq cap m (a mod cap) pattern) Deselected.
Proof.
  intros Hs Hseq.
  rewrite chip_width, <- address_frame_big_endian.
  rewrite app_comm_cons, after_app, chip_header by auto.
  change (SRAM_WRITE_CODE =? SRAM_READ_CODE) with false. cbv iota.
  now apply chip_write_data.
Qed.

Lemma lxor_changes (x : Z) : (Z.lxor x 0xFF =? x) = false.
Proof.
  apply Z.eqb_neq. intro H.
  assert (E : Z.lxor x (Z.lxor x 0xFF) = 0)
    by (rewrite H; apply Z.lxor_nilpotent).
  rewrite <- Z.lxor_assoc, Z.lxor_nilpotent, Z.lxor_0_l in E.
  discriminate E.
Qed.

(** The probe of a candidate whose address width is the chip's. *)
Lemma wraps_at_agree (cap cand : Z) (w : World Chip) :
  supported cap -> plugged cap w ->
  profile_address_bytes cand = chip_address_bytes cap ->
  exists t,
    wraps_at cand w =
    (let m := memory (wire w) in
     let m' := write_seq cap m ((cand - 1) mod cap) (marker (m 0)) in
     Returns (negb (m' 0 =? m 0))
       (mkWorld (this w)
          (mkChip cap (cs_pin (wire w)) (mode_register (wire w)) m'
                  Deselected) t)).
Proof.
  destruct w as [[sb pin] [ccap cpin mode m st] t].
  unfold plugged, sequential;
    cbn [this wire SRAMBytes _SSPin capacity cs_pin state mode_register
         memory].
  intros Hs (-> & -> & -> & Hseq) Hw.
  unfold wraps_at. unfold bind at 1. cbn [member this _SSPin].
  rewrite Hw. unfold bind at 1.
  match goal with
  | |- context [read_first_byte ?p ?n ?w1] =>
      destruct (read_first_byte_run p n w1) as (t1 & ->)
  end.
  cbv zeta. cbn [this wire bus_digitalWrite bus_transfer chip_bus].
  destruct (chip_read_first cap pin mode m Hs) as [E1 E2].
  cbv zeta in E1, E2. rewrite E1, E2.
  unfold bind at 1.
  match goal with
  | |- context [write_marker ?p ?n ?a ?pat ?w1] =>
      destruct (write_marker_run p n a pat w1) as (t2 & ->)
  end.
  cbn [this wire bus_digitalWrite bus_transfer chip_bus].
  rewrite chip_write_run by auto.
  unfold bind at 1.
  match goal with
  | |- context [read_first_byte ?p ?n ?w1] =>
      destruct (read_first_byte_run p n w1) as (t3 & ->)
  end.
  cbv zeta. cbn [this wire bus_digitalWrite bus_transfer chip_bus].
  match goal with
  | |- context [mkChip cap pin mode ?m1 Deselected] =>
      destruct (chip_read_first cap pin mode m1 Hs) as [E3 E4]
  end.
  cbv zeta in E3, E4. rewrite E3, E4.
  unfold ret. eexists; reflexivity.
Qed.

Lemma plugged_after_write (cap : Z) (w : World Chip) (m : Z -> Z)
      (t : list event) :
  plugged cap w ->
  plugged cap (mkWorld (this w)
                 (mkChip cap (cs_pin (wire w)) (mode_register (wire w)) m
                         Deselected) t).
Proof.
  unfold plugged, sequential.
  cbn [this wire capacity cs_pin state mode_register].
  intuition auto.
Qed.

(** A candidate below the capacity of the chip: the marker stays clear
    of address 0. *)
Lemma wraps_below (cap cand : Z) (w : World Chip) :
  supported cap -> plugged cap w ->
  profile_address_bytes cand = chip_address_bytes cap ->
  1 < cand < cap ->
  exists w',
    wraps_at cand w = Returns false w' /\
    plugged cap w' /\ this w' = this w.
Proof.
  intros Hs Hp Hw Hc.
  destruct (wraps_at_agree cap cand w Hs Hp Hw) as (t & ->).
  cbv zeta. unfold marker. cbn [write_seq].
  rewrite (Z.mod_small (cand - 1)) by lia.
  replace (cand - 1 + 1) with cand by ring.
  rewrite (Z.mod_small cand) by lia.
  rewrite !store_other by lia. rewrite Z.eqb_refl. cbn [negb].
  eexists. split; [reflexivity |]. split; [| reflexivity].
  now apply plugged_after_write.
Qed.

(** The candidate that is the capacity of the chip: the second marker
    byte lands on address 0. *)
Lemma wraps_exact (cap : Z) (w : World Chip) :
  supported cap -> plugged cap w ->
  profile_address_bytes cap = chip_address_bytes cap ->
  exists w',
    wraps_at cap w = Returns true w' /\
    plugged cap w' /\ this w' = this w.
Proof.
  intros Hs Hp Hw. pose proof (supported_pos _ Hs) as Hpos.
  destruct (wraps_at_agree cap cap w Hs Hp Hw) as (t & ->).
  cbv zeta. unfold marker. cbn [write_seq].
  rewrite (Z.mod_small (cap - 1)) by lia.
  replace (cap - 1 + 1) with cap by ring.
  rewrite Z.mod_same by lia.
  rewrite store_same, lxor_changes. cbn [negb].
  eexists. split; [reflexivity |]. split; [| reflexivity].
  now apply plugged_after_write.
Qed.

(** *** One step of the chip at a time *)

Lemma chip_selected (cap pin mode : Z) (m : Z -> Z) :
  chip_select pin LOW (mkChip cap pin mode m Deselected)
  = mkChip cap pin mode m Command.
Proof.
  unfold chip_select, with_state.
  cbn [state capacity cs_pin mode_register memory].
  now rewrite Z.eqb_refl.
Qed.

Lemma chip_deselected (cap pin mode : Z) (m : Z -> Z) (st : phase) :
  chip_select pin HIGH (mkChip cap pin mode m st)
  = mkChip cap pin mode m Deselected.
Proof.
  unfold chip_select, with_state.
  cbn [state capacity cs_pin mode_register memory].
  now rewrite Z.eqb_refl.
Qed.

Lemma chip_command (cap pin mode : Z) (m : Z -> Z) (cmd : Z) :
  cmd = SRAM_READ_CODE \/ cmd = SRAM_WRITE_CODE ->
  chip_transfer cmd (mkChip cap pin mode m Command)
  = (floating,
     mkChip cap pin mode m (Address cmd (chip_address_bytes cap) 0)).
Proof.
  intro Hcmd. unfold chip_transfer, with_state.
  cbn [state capacity cs_pin mode_register memory].
  now destruct Hcmd as [-> | ->].
Qed.

Lemma chip_address_more (cap pin mode : Z) (m : Z -> Z) (cmd : Z)
      (k : nat) (acc b : Z) :
  chip_transfer b (mkChip cap pin mode m (Address cmd (S (S k)) acc))
  = (floating,
     mkChip cap pin mode m (Address cmd (S k) (acc * 256 + b))).
Proof. reflexivity. Qed.

Lemma chip_address_last (cap pin mode : Z) (m : Z -> Z) (cmd acc b : Z) :
  chip_transfer b (mkChip cap pin mode m (Address cmd 1 acc))
  = (floating,
     mkChip cap pin mode m
            (if cmd =? SRAM_READ_CODE
             then Reading ((acc * 256 + b) mod cap)
             else Writing ((acc * 256 + b) mod cap))).
Proof. reflexivity. Qed.

Lemma chip_mode_command (cap pin mode : Z) (m : Z -> Z) :
  chip_transfer SRAM_WRITE_MODE_REG (mkChip cap pin mode m Command)
  = (floating, mkChip cap pin mode m ModeWrite).
Proof. reflexivity. Qed.

Lemma chip_mode_write (cap pin mode : Z) (m : Z -> Z) (b : Z) :
  chip_transfer b (mkChip cap pin mode m ModeWrite)
  = (floating, mkChip cap pin b m Ignoring).
Proof. reflexivity. Qed.

Lemma chip_writing (cap pin mode : Z) (m : Z -> Z) (p b : Z) :
  exists st,
    chip_transfer b (mkChip cap pin mode m (Writing p))
    = (floating, mkChip cap pin mode (store m p b) st).
Proof. eexists; reflexivity. Qed.

(** A 1 Mbit chip probed with two address bytes takes the first marker
    byte for the third address byte and never drives the line during
    the read-back. *)
Lemma chip_read_first_narrow (pin mode : Z) (m : Z -> Z) :
  let c := mkChip SRAM_1024 pin mode m Deselected in
  let b1 := after (SRAM_READ_CODE :: big_endian 2 0)
                  (chip_select pin LOW c) in
  fst (chip_transfer 0 b1) = floating /\
  chip_select pin HIGH (snd (chip_transfer 0 b1)) = c.
Proof.
  cbv zeta. cbn [after big_endian bus_transfer chip_bus].
  rewrite chip_selected, chip_command by (left; reflexivity).
  change (chip_address_bytes SRAM_1024) with 3%nat. cbn [snd].
  rewrite chip_address_more. cbn [snd].
  rewrite chip_address_more. cbn [snd].
  rewrite chip_address_last. cbn [fst snd].
  split; [reflexivity | apply chip_deselected].
Qed.

Lemma chip_write_narrow (pin mode : Z) (m : Z -> Z) (a x y : Z) :
  exists m',
    chip_select pin HIGH
      (after (SRAM_WRITE_CODE :: big_endian 2 a ++ [x; y])
             (chip_select pin LOW (mkChip SRAM_1024 pin mode m Deselected)))
    = mkChip SRAM_1024 pin mode m' Deselected.
Proof.
  cbn [after big_endian app bus_transfer chip_bus].
  rewrite chip_selected, chip_command by (right; reflexivity).
  change (chip_address_bytes SRAM_1024) with 3%nat. cbn [snd].
  rewrite chip_address_more. cbn [snd].
  rewrite chip_address_more. cbn [snd].
  rewrite chip_address_last. cbn [snd].
  change (SRAM_WRITE_CODE =? SRAM_READ_CODE) with false. cbv iota.
  match goal with
  | |- context [chip_transfer y (mkChip ?c ?p ?md ?m0 (Writing ?q))] =>
      destruct (chip_writing c p md m0 q y) as (st & ->)
  end.
  cbn [snd]. rewrite chip_deselected. eexists; reflexivity.
Qed.

Lemma wraps_narrow (cand : Z) (w : World Chip) :
  plugged SRAM_1024 w ->
  profile_address_bytes cand = 2%nat ->
  exists w',
    wraps_at cand w = Returns false w' /\
    plugged SRAM_1024 w' /\ this w' = this w.
Proof.
  destruct w as [[sb pin] [ccap cpin mode m st] t].
  intros Hp Hw. pose proof Hp as Hp0. revert Hp.
  unfold plugged at 1, sequential;
    cbn [this wire SRAMBytes _SSPin capacity cs_pin state mode_register
         memory].
  intros (E1 & E2 & E3 & Hseq). subst ccap cpin st.
  unfold wraps_at. unfold bind at 1. cbn [member this _SSPin].
  rewrite Hw. unfold bind at 1.
  match goal with
  | |- context [read_first_byte ?p ?n ?w1] =>
      destruct (read_first_byte_run p n w1) as (t1 & ->)
  end.
  cbv zeta. cbn [this wire bus_digitalWrite bus_transfer chip_bus].
  destruct (chip_read_first_narrow pin mode m) as [R1 R2].
  cbv zeta in R1, R2. rewrite R1, R2.
  unfold bind at 1.
  match goal with
  | |- context [write_marker ?p ?n ?a ?pat ?w1] =>
      destruct (write_marker_run p n a pat w1) as (t2 & ->)
  end.
  cbn [this wire bus_digitalWrite bus_transfer chip_bus]. unfold marker.
  match goal with
  | |- context [big_endian 2 ?a ++ [?x; ?y]] =>
      destruct (chip_write_narrow pin mode m a x y) as (m' & ->)
  end.
  unfold bind at 1.
  match goal with
  | |- context [read_first_byte ?p ?n ?w1] =>
      destruct (read_first_byte_run p n w1) as (t3 & ->)
  end.
  cbv zeta. cbn [this wire bus_digitalWrite bus_transfer chip_bus].
  destruct (chip_read_first_narrow pin mode m') as [R3 R4].
  cbv zeta in R3, R4. rewrite R3, R4.
  unfold ret. rewrite Z.eqb_refl. cbn [negb].
  eexists. split; [reflexivity |]. split; [| reflexivity].
  apply (plugged_after_write SRAM_1024 _ m' t3 Hp0).
Qed.

(** Probing in order: every candidate before the capacity of the chip
    shows nothing, the capacity itself shows the wraparound and is
    recorded. *)
Lemma detect_finds (cap : Z) (before rest : list Z) :
  (forall c w, In c before -> plugged cap w ->
               exists w', wraps_at c w = Returns false w' /\
                          plugged cap w' /\ this w' = this w) ->
  (forall w, plugged cap w ->
             exists w', wraps_at cap w = Returns true w' /\
                        plugged cap w' /\ this w' = this w) ->
  forall w, plugged cap w ->
    exists w',
      detect (before ++ cap :: rest) w = Returns tt w' /\
      SRAMBytes (this w') = cap /\
      _SSPin (this w') = _SSPin (this w) /\
      plugged cap w'.
Proof.
  intros Hbelow Hexact.
  induction before as [|c before IH]; intros w Hp; cbn [app detect];
    unfold bind.
  - destruct (Hexact w Hp) as (w1 & -> & Hp1 & Hthis).
    unfold set_SRAMBytes. eexists. split; [reflexivity |].
    cbn [this SRAMBytes _SSPin]. rewrite Hthis.
    split; [reflexivity |]. split; [reflexivity |].
    destruct Hp1 as (P1 & P2 & P3 & P4). rewrite Hthis in P2.
    unfold plugged; cbn [this wire _SSPin]. auto.
  - destruct (Hbelow c w (or_introl eq_refl) Hp) as (w1 & -> & Hp1 & Hthis).
    destruct (IH (fun c' w0 Hin => Hbelow c' w0 (or_intror Hin)) w1 Hp1)
      as (w' & Hrun & Hcap & Hpin & Hp').
    exists w'. rewrite Hrun, Hcap, Hpin, Hthis. auto.
Qed.

Lemma detect_chip (cap : Z) (w : World Chip) :
  supported cap -> plugged cap w ->
  exists w',
    detect supported_capacities w = Returns tt w' /\
    SRAMBytes (this w') = cap /\
    _SSPin (this w') = _SSPin (this w) /\
    plugged cap w'.
Proof.
  intros Hs Hp.
  pose proof (supported_cases cap Hs) as Hcases.
  destruct Hcases as [E | [E | [E | [E | E]]]]; subst cap.
  - apply (detect_finds SRAM_64 [] [SRAM_128; SRAM_256; SRAM_512; SRAM_1024]);
      [intros c w0 [] | | exact Hp].
    intros w0 Hp0. now apply wraps_exact.
  - apply (detect_finds SRAM_128 [SRAM_64] [SRAM_256; SRAM_512; SRAM_1024]);
      [| | exact Hp].
    + intros c w0 Hin Hp0. cbn [In] in Hin.
      destruct Hin as [<- | []].
      apply wraps_below; [exact Hs | exact Hp0 | reflexivity |].
      unfold SRAM_64, SRAM_128; lia.
    + intros w0 Hp0. now apply wraps_exact.
  - apply (detect_finds SRAM_256 [SRAM_64; SRAM_128] [SRAM_512; SRAM_1024]);
      [| | exact Hp].
    + intros c w0 Hin Hp0. cbn [In] in Hin.
      destruct Hin as [<- | [<- | []]];
        (apply wraps_below; [exact Hs | exact Hp0 | reflexivity |]);
        unfold SRAM_64, SRAM_128, SRAM_256; lia.
    + intros w0 Hp0. now apply wraps_exact.
  - apply (detect_finds SRAM_512 [SRAM_64; SRAM_128; SRAM_256] [SRAM_1024]);
      [| | exact Hp].
    + intros c w0 Hin Hp0. cbn [In] in Hin.
      destruct Hin as [<- | [<- | [<- | []]]];
        (apply wraps_below; [exact Hs | exact Hp0 | reflexivity |]);
        unfold SRAM_64, SRAM_128, SRAM_256, SRAM_512; lia.
    + intros w0 Hp0. now apply wraps_exact.
  - apply (detect_finds SRAM_1024 [SRAM_64; SRAM_128; SRAM_256; SRAM_512] []);
      [| | exact Hp].
    + intros c w0 Hin Hp0. cbn [In] in Hin.
      destruct Hin as [<- | [<- | [<- | [<- | []]]]];
        now apply wraps_narrow.
    + intros w0 Hp0. now apply wraps_exact.
Qed.

(** C1: for a simulated chip of supported capacity [C], the detection
    run by the constructor reports exactly [C] in [SRAMBytes], and the
    driver then uses the 3-byte address width if and only if
    [C = 131072] (the 2-byte width otherwise).  The chip is left in
    sequential mode, waiting for a frame. *)
Theorem detection_reports_capacity (cap pin : Z) (chip : Chip) :
  supported cap ->
  capacity chip = cap -> cs_pin chip = pin -> state chip = Deselected ->
  exists w',
    construct pin chip = Returns tt w' /\
    SRAMBytes (this w') = cap /\
    (address_bytes (this w') = 3%nat <-> cap = SRAM_1024) /\
    (address_bytes (this w') = 2%nat <-> cap <> SRAM_1024) /\
    ready cap w'.
Proof.
  intros Hs Hcap Hpin Hst.
  destruct chip as [ccap cpin mode m st].
  cbn [capacity cs_pin state] in Hcap, Hpin, Hst. subst ccap cpin st.
  destruct (construct_unfold pin (mkChip cap pin mode m Deselected))
    as (t & ->).
  cbn [after bus_digitalWrite bus_transfer chip_bus].
  rewrite chip_deselected, chip_selected, chip_mode_command. cbn [snd].
  rewrite chip_mode_write. cbn [snd]. rewrite chip_deselected.
  match goal with
  | |- context [detect _ ?w0] =>
      destruct (detect_chip cap w0 Hs) as (w' & -> & Hc & Hp & Hplug)
  end.
  { unfold plugged, sequential.
    cbn [this wire capacity cs_pin state mode_register _SSPin].
    repeat split; reflexivity. }
  exists w'. split; [reflexivity |]. split; [exact Hc |].
  pose proof (address_bytes_cases (this w')) as [A3 A2].
  rewrite Hc in A3, A2.
  split; [exact A3 |]. split; [exact A2 |].
  split; [exact Hc | exact Hplug].
Qed.

End DetectionOnTheChip.

(** * The claims at concrete inputs *)

Section Instances.

Lemma after_open_line (bs : list Z) (l : OpenLine) : after bs l = l.
Proof. induction bs as [|b bs IH]; [reflexivity | exact IH]. Qed.

(** Nothing answers on an open line: the read-back is the same before
    and after the marker write. *)
Lemma open_line_never_wraps (c : Z) (w : World OpenLine) (r : bool)
      (w' : World OpenLine) :
  wraps_at c w = Returns r w' -> r = false.
Proof.
  unfold wraps_at. unfold bind at 1. cbn [member].
  unfold bind at 1.
  destruct (read_first_byte_run (_SSPin (this w))
              (profile_address_bytes c) w) as (t1 & ->).
  cbv zeta. unfold bind at 1.
  match goal with
  | |- context [write_marker ?p ?n ?a ?m ?w1] =>
      destruct (write_marker_run p n a m w1) as (t2 & ->)
  end.
  unfold bind at 1.
  match goal with
  | |- context [read_first_byte ?p ?n ?w1] =>
      destruct (read_first_byte_run p n w1) as (t3 & ->)
  end.
  cbv zeta. unfold ret.
  cbn [this wire bus_digitalWrite bus_transfer open_bus fst snd].
  rewrite !after_open_line, Z.eqb_refl.
  intro H. injection H as <- _. reflexivity.
Qed.

Lemma detection_reports_capacity_witness :
  exists w',
    construct 10 (mkChip SRAM_64 10 SRAM_BYTE_MODE (fun _ => 0) Deselected)
    = Returns tt w' /\
    SRAMBytes (this w') = SRAM_64 /\
    (address_bytes (this w') = 3%nat <-> SRAM_64 = SRAM_1024) /\
    (address_bytes (this w') = 2%nat <-> SRAM_64 <> SRAM_1024) /\
    ready SRAM_64 w'.
Proof.
  apply (detection_reports_capacity SRAM_64 10
           (mkChip SRAM_64 10 SRAM_BYTE_MODE (fun _ => 0) Deselected)).
  - left; reflexivity.
  - reflexivity.
  - reflexivity.
  - reflexivity.
Defined.

Lemma returned_reference_is_dead_witness :
  (r <- put 8190 [1; 2; 3; 4]; read_reference r) open64 = Undefined /\
  supported (SRAMBytes (this open64)) /\
  (exists w', put 8190 [1; 2; 3; 4] open64
              = Returns (DeadLocal ((8190 + 4) mod 8192)) w').
Proof.
  destruct (returned_reference_is_dead open64 8190 4 Apart [1; 2; 3; 4])
    as (_ & Hread & Hheld).
  split; [exact Hread |].
  split; [left; reflexivity |].
  destruct Hheld as (_ & Hput & _).
  - left; reflexivity.
  - exact Hput.
Defined.

Lemma put_get_roundtrip_witness :
  0 <= 8190 < SRAM_64 /\
  sizeof [1; 2; 3; 4] <= SRAM_64 /\
  read_back 8190 [1; 2; 3; 4] chip64 = Some [1; 2; 3; 4].
Proof.
  split; [unfold SRAM_64; lia |].
  split; [vm_compute; discriminate |].
  apply (put_get_roundtrip SRAM_64 8190 [1; 2; 3; 4] chip64).
  - left; reflexivity.
  - repeat split.
  - unfold SRAM_64; lia.
  - vm_compute; discriminate.
Defined.

(** C3 fails for a value larger than the chip: the last byte of a
    8193-byte value wraps onto the first, and comes back in its
    place. *)
Lemma roundtrip_oversized_counterexample :
  read_back 0 (1 :: repeat 0 (Z.to_nat 8191) ++ [2]) chip64
  <> Some (1 :: repeat 0 (Z.to_nat 8191) ++ [2]).
Proof.
  unfold read_back, bind.
  destruct (put_chip SRAM_64 0 (1 :: repeat 0 (Z.to_nat 8191) ++ [2]) chip64)
    as (t & ->); [left; reflexivity | repeat split |].
  match goal with
  | |- context [get 0 ?n Apart ?w1] =>
      destruct (get_chip SRAM_64 0 n w1) as (t' & ->);
        [left; reflexivity | repeat split |]
  end.
  intro H.
  apply (f_equal (fun o => match o with Some (x :: _) => x | _ => 0 end))
    in H.
  lazy in H. discriminate H.
Qed.

Lemma fillMemory_reads_dead_reference_witness :
  0 < to_uint32 (SRAMBytes (this chip64) - sizeof [0xAB; 0xCD]) /\
  fillMemory 4095 0 [0xAB; 0xCD] chip64 = Undefined.
Proof.
  split; [reflexivity |].
  apply (fillMemory_reads_dead_reference chip64 0 [0xAB; 0xCD] 4094).
  reflexivity.
Defined.

(** C5 fails on a driver whose capacity is still zero: nothing is
    returned, the modulo by zero is evaluated. *)
Lemma zero_capacity_counterexample :
  get 0 4 Apart (attach 0 10 (mkOpenLine 0xFF)) = Undefined /\
  put 0 [1; 2; 3; 4] (attach 0 10 (mkOpenLine 0xFF)) = Undefined.
Proof. split; reflexivity. Qed.

Lemma detection_failure_leaves_zero_witness :
  exists w',
    construct 10 (mkOpenLine 0xFF) = Returns tt w'
    /\ SRAMBytes (this w') = 0.
Proof.
  apply (detection_failure_leaves_zero 10 (mkOpenLine 0xFF)).
  intros c w r w' _. apply open_line_never_wraps.
Defined.

Lemma address_bytes_on_the_bus_witness :
  0 < SRAMBytes (this open64) /\
  bus_output (put 8190 [1; 2; 3; 4] open64)
  = [SRAM_WRITE_CODE; 0x1F; 0xFE; 1; 2; 3; 4].
Proof.
  split; [reflexivity |].
  destruct (address_bytes_on_the_bus open64 8190 4 Apart [1; 2; 3; 4])
    as (_ & Hput & _).
  - reflexivity.
  - rewrite Hput. reflexivity.
Defined.

(** C7 fails for an address at or above the capacity: address 8192 on
    the 8192-byte chip goes out as 0x20 0x00, not as the encoding of
    [8192 mod 8192]. *)
Lemma address_not_reduced_counterexample :
  bus_output (put 8192 [7] open64) = [SRAM_WRITE_CODE; 0x20; 0x00; 7] /\
  bus_output (put 8192 [7] open64)
  <> SRAM_WRITE_CODE :: big_endian 2 (8192 mod SRAM_64) ++ [7].
Proof. split; [reflexivity | vm_compute; discriminate]. Qed.

Lemma clearMemory_fills_witness :
  exists w',
    clearMemory 0xFF chip64 = Returns tt w' /\
    ready SRAM_64 w' /\
    forall i, 0 <= i < SRAM_64 ->
      memory (wire w') i = 0xFF /\
      exists w'',
        get i 1 Apart w'
        = Returns (DeadLocal ((i + 1) mod SRAM_64), [0xFF]) w''.
Proof.
  apply (clearMemory_fills SRAM_64 0xFF chip64).
  - left; reflexivity.
  - repeat split.
Defined.



Lemma driver_members_unchanged_witness :
  apart (Within 5) 4 /\
  members_unchanged chip64 (get 8190 4 (Within 5) chip64) /\
  members_unchanged chip64 (put 8190 [1; 2; 3; 4] chip64) /\
  members_unchanged chip64 (fillMemory 1 8190 [1; 2; 3; 4] chip64).
Proof.
  split; [right; reflexivity |].
  apply (driver_members_unchanged chip64 8190 4 (Within 5) [1; 2; 3; 4] 1).
  right; reflexivity.
Defined.

(** C10 fails when the value of [get] is a member of the driver itself:
    [get(0, sram.SRAMBytes)] on the zeroed 8192-byte chip stores the four
    bytes it reads over [SRAMBytes], which becomes 0. *)
Lemma members_overwritten_counterexample :
  ~ members_unchanged chip64 (get 0 4 (Within 0) chip64).
Proof.
  intro H. vm_compute in H. destruct H as [H _]. discriminate H.
Qed.

End Instances.

(** * Further properties of [get], [put] and [fillMemory] *)

Section Sequences.

Lemma read_seq_length (c : Z) (m : Z -> Z) (n : nat) :
  forall p, length (read_seq c m p n) = n.
Proof.
  induction n as [|n IH]; intro p; cbn [read_seq length].
  - reflexivity.
  - now rewrite IH.
Qed.

(** The [i]-th byte read is the one at [p + i], wrapped at the capacity. *)
Lemma read_seq_nth (c : Z) (m : Z -> Z) (n : nat) :
  forall (p : Z) (i : nat),
    0 <= p < c -> (i < n)%nat ->
    nth i (read_seq c m p n) 0 = m ((p + Z.of_nat i) mod c).
Proof.
  induction n as [|n IH]; intros p i Hp Hi; [lia |].
  cbn [read_seq]. destruct i as [|i]; cbn [nth].
  - rewrite Z.add_0_r, Z.mod_small by lia. reflexivity.
  - rewrite IH; [| apply Z.mod_pos_bound; lia | lia].
    rewrite Z.add_mod_idemp_l by lia.
    f_equal. f_equal. lia.
Qed.

Lemma read_seq_ext (c : Z) (m m' : Z -> Z) (n : nat) :
  forall p : Z,
    0 <= p < c ->
    (forall i, 0 <= i < Z.of_nat n -> m' ((p + i) mod c) = m ((p + i) mod c)) ->
    read_seq c m' p n = read_seq c m p n.
Proof.
  induction n as [|n IH]; intros p Hp H; cbn [read_seq].
  - reflexivity.
  - f_equal.
    + specialize (H 0). rewrite Z.add_0_r, Z.mod_small in H by lia.
      apply H. lia.
    + apply IH; [apply Z.mod_pos_bound; lia |].
      intros i Hi. rewrite Z.add_mod_idemp_l by lia.
      replace (p + 1 + i) with (p + (i + 1)) by ring. apply H. lia.
Qed.

Lemma read_seq_app (c : Z) (m : Z -> Z) (n1 n2 : nat) :
  forall p : Z,
    0 <= p < c ->
    read_seq c m p (n1 + n2)
    = read_seq c m p n1 ++ read_seq c m ((p + Z.of_nat n1) mod c) n2.
Proof.
  induction n1 as [|n1 IH]; intros p Hp.
  - cbn [Nat.add read_seq app Z.of_nat].
    now rewrite Z.add_0_r, Z.mod_small by lia.
  - cbn [Nat.add read_seq app]. f_equal.
    rewrite IH by (apply Z.mod_pos_bound; lia).
    rewrite Z.add_mod_idemp_l by lia.
    do 3 f_equal. lia.
Qed.

(** The [i]-th byte of a run that fits in the array is found at [p + i],
    wrapped at the capacity. *)
Lemma write_seq_hit (c : Z) (bs : list Z) :
  forall (m : Z -> Z) (p : Z) (i : nat),
    0 <= p < c -> Z.of_nat (length bs) <= c -> (i < length bs)%nat ->
    write_seq c m p bs ((p + Z.of_nat i) mod c) = nth i bs 0.
Proof.
  induction bs as [|b bs IH]; intros m p i Hp Hlen Hi;
    cbn [length] in *; [lia |].
  cbn [write_seq]. destruct i as [|i]; cbn [nth].
  - cbn [Z.of_nat]. rewrite Z.add_0_r, (Z.mod_small p c) by lia.
    rewrite write_seq_skip.
    + apply store_same.
    + lia.
    + apply Z.mod_pos_bound; lia.
    + intros j Hj. rewrite Z.add_mod_idemp_l by lia.
      replace (p + 1 + j) with (p + (j + 1)) by ring.
      apply step_not_back; lia.
  - rewrite <- (IH (store m p b) ((p + 1) mod c) i);
      [| apply Z.mod_pos_bound; lia | lia | lia].
    rewrite Z.add_mod_idemp_l by lia.
    do 2 f_equal. lia.
Qed.

Lemma write_seq_app (c : Z) (v1 v2 : list Z) :
  forall (m : Z -> Z) (p : Z),
    0 <= p < c ->
    write_seq c m p (v1 ++ v2)
    = write_seq c (write_seq c m p v1) ((p + sizeof v1) mod c) v2.
Proof.
  unfold sizeof.
  induction v1 as [|b v1 IH]; intros m p Hp.
  - cbn [app write_seq length Z.of_nat].
    now rewrite Z.add_0_r, Z.mod_small by lia.
  - cbn [app write_seq length].
    rewrite IH by (apply Z.mod_pos_bound; lia).
    rewrite Z.add_mod_idemp_l by lia.
    do 2 f_equal. lia.
Qed.

End Sequences.

Section ChipMemory.

(** X1: on a chip of supported capacity [C], [get(a, value)] of [n] bytes
    into a value that lies apart from the driver reads byte [i] of the
    value from address [(a + i) mod C]: a read that runs past the last
    address goes on at address 0.  The chip and the driver are left as
    they were found. *)
Theorem get_reads_wrapped (c a : Z) (n : nat) (w : World Chip) :
  supported c -> ready c w ->
  exists r bytes t,
    get a n Apart w = Returns (r, bytes) (mkWorld (this w) (wire w) t)
    /\ length bytes = n
    /\ forall i, (i < n)%nat ->
         nth i bytes 0 = memory (wire w) ((a + Z.of_nat i) mod c).
Proof.
  intros Hs Hr. pose proof (supported_pos c Hs) as Hpos.
  destruct (get_chip c a n w Hs Hr) as (t & E).
  eexists; eexists; exists t. split; [exact E |].
  split; [apply read_seq_length |].
  intros i Hi.
  rewrite read_seq_nth; [| apply Z.mod_pos_bound; lia | exact Hi].
  now rewrite Z.add_mod_idemp_l by lia.
Qed.

(** X2: on a chip of supported capacity [C], [put(a, value)] of at most
    [C] bytes stores byte [i] of the value at address [(a + i) mod C],
    leaves every other address of the chip as it was, and leaves the chip
    ready for the next frame. *)
Theorem put_writes_wrapped (c a : Z) (v : list Z) (w : World Chip) :
  supported c -> ready c w ->
  sizeof v <= c ->
  exists w',
    put a v w = Returns (DeadLocal ((a + sizeof v) mod c)) w'
    /\ ready c w'
    /\ (forall i, (i < length v)%nat ->
          memory (wire w') ((a + Z.of_nat i) mod c) = nth i v 0)
    /\ (forall q, (forall i, 0 <= i < sizeof v -> (a + i) mod c <> q) ->
          memory (wire w') q = memory (wire w) q).
Proof.
  intros Hs Hr Hlen. pose proof (supported_pos c Hs) as Hpos.
  destruct (put_chip c a v w Hs Hr) as (t & E).
  eexists. split; [exact E |].
  split; [now apply ready_after_write |].
  cbn [wire memory]. split.
  - intros i Hi.
    rewrite <- (Z.add_mod_idemp_l a) by lia.
    apply write_seq_hit;
      [apply Z.mod_pos_bound; lia | exact Hlen | exact Hi].
  - intros q Hq. apply write_seq_skip;
      [lia | apply Z.mod_pos_bound; lia |].
    intros i Hi. rewrite Z.add_mod_idemp_l by lia.
    apply Hq. exact Hi.
Qed.

(** X3: on a chip of supported capacity [C] the driver's addresses alias
    modulo [C]: [put] at [a + k * C] leaves the same chip as [put] at
    [a], and [get] at [a + k * C] reads the same bytes as [get] at
    [a]. *)
Theorem address_aliases (c a k : Z) (v : list Z) (n : nat) (w : World Chip) :
  supported c -> ready c w ->
  (exists r1 r2 chip t1 t2,
      put a v w = Returns r1 (mkWorld (this w) chip t1)
      /\ put (a + k * c) v w = Returns r2 (mkWorld (this w) chip t2))
  /\
  (exists r1 r2 bytes t1 t2,
      get a n Apart w = Returns (r1, bytes) (mkWorld (this w) (wire w) t1)
      /\ get (a + k * c) n Apart w
         = Returns (r2, bytes) (mkWorld (this w) (wire w) t2)).
Proof.
  intros Hs Hr. pose proof (supported_pos c Hs) as Hpos.
  split.
  - destruct (put_chip c a v w Hs Hr) as (t1 & E1).
    destruct (put_chip c (a + k * c) v w Hs Hr) as (t2 & E2).
    rewrite Z.mod_add in E2 by lia.
    eauto 10.
  - destruct (get_chip c a n w Hs Hr) as (t1 & E1).
    destruct (get_chip c (a + k * c) n w Hs Hr) as (t2 & E2).
    rewrite Z.mod_add in E2 by lia.
    eauto 10.
Qed.

(** X4: streaming writes compose.  On a chip of supported capacity,
    [put] of a first value at [a] followed by [put] of a second value at
    [a + sizeof] of the first leaves the same chip as a single [put] at
    [a] of the two values laid end to end, across the wrap at the
    capacity too. *)
Theorem put_chains (c a : Z) (v1 v2 : list Z) (w : World Chip) :
  supported c -> ready c w ->
  exists r1 w1 r2 r chip t1 t2,
    put a v1 w = Returns r1 w1
    /\ put (a + sizeof v1) v2 w1 = Returns r2 (mkWorld (this w) chip t1)
    /\ put a (v1 ++ v2) w = Returns r (mkWorld (this w) chip t2).
Proof.
  intros Hs Hr. pose proof (supported_pos c Hs) as Hpos.
  destruct (put_chip c a v1 w Hs Hr) as (t & E1).
  pose proof (ready_after_write c w
                (write_seq c (memory (wire w)) (a mod c) v1) t Hr) as Hr1.
  destruct (put_chip c (a + sizeof v1) v2 _ Hs Hr1) as (t1 & E2).
  destruct (put_chip c a (v1 ++ v2) w Hs Hr) as (t2 & E3).
  cbn [this wire cs_pin mode_register memory] in E2.
  rewrite write_seq_app in E3 by (apply Z.mod_pos_bound; lia).
  rewrite Z.add_mod_idemp_l in E3 by lia.
  eauto 12.
Qed.

(** X5: streaming reads compose.  On a chip of supported capacity, a
    [get] of [n1] bytes at [a] followed by a [get] of [n2] bytes at
    [a + n1] yields, end to end, the bytes of a single [get] of
    [n1 + n2] bytes at [a]. *)
Theorem get_chains (c a : Z) (n1 n2 : nat) (w : World Chip) :
  supported c -> ready c w ->
  exists r1 x1 w1 r2 x2 w2 r t,
    get a n1 Apart w = Returns (r1, x1) w1
    /\ get (a + Z.of_nat n1) n2 Apart w1 = Returns (r2, x2) w2
    /\ get a (n1 + n2) Apart w
       = Returns (r, x1 ++ x2) (mkWorld (this w) (wire w) t).
Proof.
  intros Hs Hr. pose proof (supported_pos c Hs) as Hpos.
  destruct (get_chip c a n1 w Hs Hr) as (t1 & E1).
  assert (Hr1 : ready c (mkWorld (this w) (wire w) t1)) by exact Hr.
  destruct (get_chip c (a + Z.of_nat n1) n2 _ Hs Hr1) as (t2 & E2).
  destruct (get_chip c a (n1 + n2) w Hs Hr) as (t3 & E3).
  cbn [this wire] in E2.
  rewrite read_seq_app in E3 by (apply Z.mod_pos_bound; lia).
  rewrite Z.add_mod_idemp_l in E3 by lia.
  eauto 14.
Qed.

(** X6: a write does not disturb what lies elsewhere.  On a chip of
    supported capacity, when no address written by [put(a, v)] is read by
    [get(b, n)], the [get] returns after the [put] what it returned
    before it. *)
Theorem put_then_get_elsewhere (c a b : Z) (v : list Z) (n : nat)
        (w : World Chip) :
  supported c -> ready c w ->
  (forall i j, 0 <= i < sizeof v -> 0 <= j < Z.of_nat n ->
               (a + i) mod c <> (b + j) mod c) ->
  exists r1 w1 r value w2 t,
    put a v w = Returns r1 w1
    /\ get b n Apart w1 = Returns (r, value) w2
    /\ get b n Apart w = Returns (r, value) (mkWorld (this w) (wire w) t).
Proof.
  intros Hs Hr Hapart. pose proof (supported_pos c Hs) as Hpos.
  destruct (put_chip c a v w Hs Hr) as (t & E1).
  pose proof (ready_after_write c w
                (write_seq c (memory (wire w)) (a mod c) v) t Hr) as Hr1.
  destruct (get_chip c b n _ Hs Hr1) as (t1 & E2).
  destruct (get_chip c b n w Hs Hr) as (t2 & E3).
  cbn [wire memory] in E2.
  rewrite (read_seq_ext c (memory (wire w))) in E2.
  - eauto 10.
  - apply Z.mod_pos_bound; lia.
  - intros j Hj. apply write_seq_skip;
      [lia | apply Z.mod_pos_bound; lia |].
    intros i Hi. rewrite !Z.add_mod_idemp_l by lia.
    apply Hapart; assumption.
Qed.

End ChipMemory.

Section FillOnAnyBus.
Context {B : Type} {bus : Bus B}.



Lemma exchanged_length (bs : list Z) (b : B) :
  length (exchanged bs b) = length bs.
Proof.
  revert b; induction bs as [|x bs IH]; intro b; cbn [exchanged length].
  - reflexivity.
  - now rewrite IH.
Qed.

Lemma exchanged_transfers (bs : list Z) (b : B) :
  Forall (fun e => exists s r, e = Transfer s r) (exchanged bs b).
Proof.
  revert b; induction bs as [|x bs IH]; intro b; cbn [exchanged].
  - constructor.
  - constructor; [eauto | apply IH].
Qed.

Lemma address_frame_length (cap a : Z) :
  length (address_frame cap a) = if cap =? SRAM_1024 then 3%nat else 2%nat.
Proof. unfold address_frame. now destruct (cap =? SRAM_1024). Qed.

(** X10: every [get] and [put] with a non-zero capacity is one frame:
    the driver's chip-select pin is pulled low first, exactly
    [1 + (2 or 3) + sizeof(T)] byte transfers follow, and a pin is pulled
    high last; no other pin is written.  The closing edge goes to the pin
    [_SSPin] names at that point: the opening pin for every [put], and
    for every [get] into a value that shares no byte with the driver
    object. *)
Theorem one_frame_per_call (w : World B) (a : Z) (n : nat)
        (value : buffer) (v : list Z) :
  SRAMBytes (this w) <> 0 ->
  (exists r w' evs,
      get a n value w = Returns r w'
      /\ trace w' = PinWrite (_SSPin (this w')) HIGH
                      :: evs ++ PinWrite (_SSPin (this w)) LOW :: trace w
      /\ Forall (fun e => exists s x, e = Transfer s x) evs
      /\ length evs = (1 + address_bytes (this w) + n)%nat
      /\ (apart value n -> _SSPin (this w') = _SSPin (this w)))
  /\
  (exists r w' evs,
      put a v w = Returns r w'
      /\ trace w' = PinWrite (_SSPin (this w)) HIGH
                      :: evs ++ PinWrite (_SSPin (this w)) LOW :: trace w
      /\ Forall (fun e => exists s x, e = Transfer s x) evs
      /\ length evs = (1 + address_bytes (this w) + length v)%nat).
Proof.
  intro Hc. split.
  - rewrite (get_run_any a n value w Hc). cbv zeta.
    eexists; eexists; eexists. split; [reflexivity |].
    cbn [trace this]. split; [reflexivity |]. split; [| split].
    + apply Forall_rev, exchanged_transfers.
    + rewrite length_rev, exchanged_length.
      cbn [length app]. rewrite length_app, address_frame_length,
        repeat_length.
      unfold address_bytes. reflexivity.
    + intro Ha. rewrite pokes_apart
        by (rewrite replies_length, repeat_length; exact Ha).
      reflexivity.
  - rewrite (put_run a v w Hc). cbv zeta.
    eexists; eexists; eexists. split; [reflexivity |].
    cbn [trace]. split; [reflexivity |]. split.
    + apply Forall_rev, exchanged_transfers.
    + rewrite length_rev, exchanged_length.
      cbn [length]. rewrite length_app, address_frame_length.
      unfold address_bytes. reflexivity.
Qed.

End FillOnAnyBus.

(** * The further properties at concrete inputs *)

Section MoreInstances.

Lemma get_reads_wrapped_witness :
  exists r bytes t,
    get 8190 4 Apart chip64
    = Returns (r, bytes) (mkWorld (this chip64) (wire chip64) t)
    /\ length bytes = 4%nat
    /\ forall i, (i < 4)%nat ->
         nth i bytes 0
         = memory (wire chip64) ((8190 + Z.of_nat i) mod SRAM_64).
Proof.
  apply (get_reads_wrapped SRAM_64 8190 4 chip64).
  - left; reflexivity.
  - repeat split.
Defined.

Lemma put_writes_wrapped_witness :
  exists w',
    put 8190 [1; 2; 3; 4] chip64
    = Returns (DeadLocal ((8190 + sizeof [1; 2; 3; 4]) mod SRAM_64)) w'
    /\ ready SRAM_64 w'
    /\ (forall i, (i < length [1; 2; 3; 4])%nat ->
          memory (wire w') ((8190 + Z.of_nat i) mod SRAM_64)
          = nth i [1; 2; 3; 4] 0)
    /\ (forall q,
          (forall i, 0 <= i < sizeof [1; 2; 3; 4] ->
                     (8190 + i) mod SRAM_64 <> q) ->
          memory (wire w') q = memory (wire chip64) q).
Proof.
  apply (put_writes_wrapped SRAM_64 8190 [1; 2; 3; 4] chip64).
  - left; reflexivity.
  - repeat split.
  - vm_compute; discriminate.
Defined.

Lemma address_aliases_witness :
  (exists r1 r2 chip t1 t2,
      put 5 [1; 2] chip64 = Returns r1 (mkWorld (this chip64) chip t1)
      /\ put (5 + 3 * SRAM_64) [1; 2] chip64
         = Returns r2 (mkWorld (this chip64) chip t2))
  /\
  (exists r1 r2 bytes t1 t2,
      get 5 2 Apart chip64
      = Returns (r1, bytes) (mkWorld (this chip64) (wire chip64) t1)
      /\ get (5 + 3 * SRAM_64) 2 Apart chip64
         = Returns (r2, bytes) (mkWorld (this chip64) (wire chip64) t2)).
Proof.
  apply (address_aliases SRAM_64 5 3 [1; 2] 2 chip64).
  - left; reflexivity.
  - repeat split.
Defined.

Lemma put_chains_witness :
  exists r1 w1 r2 r chip t1 t2,
    put 8190 [1; 2] chip64 = Returns r1 w1
    /\ put (8190 + sizeof [1; 2]) [3; 4] w1
       = Returns r2 (mkWorld (this chip64) chip t1)
    /\ put 8190 ([1; 2] ++ [3; 4]) chip64
       = Returns r (mkWorld (this chip64) chip t2).
Proof.
  apply (put_chains SRAM_64 8190 [1; 2] [3; 4] chip64).
  - left; reflexivity.
  - repeat split.
Defined.

Lemma get_chains_witness :
  exists r1 x1 w1 r2 x2 w2 r t,
    get 8190 2 Apart chip64 = Returns (r1, x1) w1
    /\ get (8190 + Z.of_nat 2) 2 Apart w1 = Returns (r2, x2) w2
    /\ get 8190 (2 + 2) Apart chip64
       = Returns (r, x1 ++ x2) (mkWorld (this chip64) (wire chip64) t).
Proof.
  apply (get_chains SRAM_64 8190 2 2 chip64).
  - left; reflexivity.
  - repeat split.
Defined.

Lemma put_then_get_elsewhere_witness :
  exists r1 w1 r value w2 t,
    put 0 [1; 2] chip64 = Returns r1 w1
    /\ get 100 2 Apart w1 = Returns (r, value) w2
    /\ get 100 2 Apart chip64
       = Returns (r, value) (mkWorld (this chip64) (wire chip64) t).
Proof.
  apply (put_then_get_elsewhere SRAM_64 0 100 [1; 2] 2 chip64).
  - left; reflexivity.
  - repeat split.
  - intros i j Hi Hj. unfold SRAM_64.
    change (sizeof [1; 2]) with 2 in Hi. change (Z.of_nat 2) with 2 in Hj.
    rewrite !Z.mod_small by lia. lia.
Defined.



Lemma one_frame_per_call_witness :
  exists r w' evs,
    put 8190 [1; 2; 3; 4] open64 = Returns r w'
    /\ trace w' = PinWrite 10 HIGH :: evs ++ PinWrite 10 LOW :: trace open64
    /\ Forall (fun e => exists s x, e = Transfer s x) evs
    /\ length evs = 7%nat.
Proof.
  destruct (one_frame_per_call open64 8190 4 Apart [1; 2; 3; 4])
    as [_ Hput].
  - vm_compute; discriminate.
  - exact Hput.
Defined.

End MoreInstances.
